(** * ConcurrentScheduler: a bounded-concurrency task scheduler

    A shallow embedding of [src/ConcurrentScheduler.js] and the proofs of
    its scheduling properties.

    The class keeps four fields ([maxConcurrent], [runningCount],
    [taskQueue], [taskId]).  Its methods mutate the instance and the wrapper
    objects that the queue and the promise callbacks share, so the methods are
    written in a small state monad over a [State] that holds the instance,
    the heap of wrapper objects, the promise reactions that have not run yet
    and the console output.

    Asynchrony: [executeNext] builds the chain
    [Promise.resolve().then(call).then(ok).catch(ko).finally(fin)].  Each of
    its callbacks runs later, in a turn of the event loop of its own, and
    calls of [addTask] may happen between any two of them.  The model has one
    [Event] per turn; a run is a list of events, and every interleaving that
    respects the order inside one chain is a run.

    The work and its wrapper: the chain calls the work as [nextTask.task()],
    a member call, so the work receives its wrapper as [this].  From that
    call on the work, or whoever it hands the wrapper to, may at any time
    call [this.resolve] and [this.reject] and assign to [this.id],
    [this.task] and [this.status]; the turn [EvWork] is one such use, and a
    run may hold any number of them, at any time after the call.  The
    fields are taken to keep the kinds of values that the class gives them
    (an integer [id], one of the four statuses), and [resolve] and [reject]
    to stay the two functions of the promise; a work that stores other
    values there is not covered.

    Numbers: the counters are only ever changed by [++] and [--] starting from
    0, and [maxConcurrent] is taken to be an integer; they are modelled as [Z]
    (exact for JavaScript numbers below 2^53). *)

From Stdlib Require Import ZArith Lia.
From stdpp Require Import base option list strings.

#[local] Set Warnings "-clear-no-such-hyp".

(** ** Data *)

(** The JavaScript values that flow through the scheduler unchanged: task
    callables, results and errors. *)
Inductive Value :=
  | VUndefined
  | VNull
  | VBool (b : bool)
  | VNum (n : Z)
  | VStr (s : string)
  | VObject (ref : nat)
  | VFun (f : nat).

Inductive Status := pending | running | completed | failed.

(** One call of the [resolve] or of the [reject] function of a promise. *)
Inductive Settlement :=
  | Resolved (v : Value)
  | Rejected (e : Value).

(** The object literal [taskWrapper] of [addTask].  [resolve] and [reject]
    belong to the promise that [addTask] returns; [handle] is the list of the
    calls made to either of them, oldest first (the promise takes the first
    one). *)
Record TaskWrapper := {
  id : Z;
  task : Value;
  handle : list Settlement;
  status : Status
}.

#[global] Instance TaskWrapper_inhabited : Inhabited TaskWrapper :=
  populate {| id := 0; task := VUndefined; handle := []; status := pending |}.

(** Wrapper objects are referred to by their address in the heap. *)
Abbreviation addr := nat (only parsing).

(** The fields of a [ConcurrentScheduler] instance. *)
Record ConcurrentScheduler := {
  maxConcurrent : Z;
  runningCount : Z;
  taskQueue : list addr;
  taskId : Z
}.

(** A callback of the promise chain of [executeNext] that is registered and
    has not run yet; [nextTask] is the wrapper its closure captured. *)
Inductive Reaction :=
  | RInvoke (nextTask : addr)    (* () => nextTask.task() *)
  | RSettle (nextTask : addr)    (* the .then / .catch pair, waiting for the work *)
  | RFinally (nextTask : addr).  (* the .finally callback *)

(** The two [console.log] lines: a task starts, a task is done; each with
    the id of the task and the value of [runningCount]. *)
Inductive LogEntry :=
  | LogStart (task_id : Z) (running_now : Z)
  | LogDone (task_id : Z) (running_now : Z).

Record State := {
  this : ConcurrentScheduler;
  heap : list TaskWrapper;
  reactions : list Reaction;
  console : list LogEntry
}.

(** What a call yields: a value, or a thrown error. *)
Inductive Completion (A : Type) :=
  | Normal (a : A)
  | Throw (e : Value).
Arguments Normal {A} a.
Arguments Throw {A} e.

#[global] Instance Value_eq_dec : EqDecision Value.
Proof. solve_decision. Defined.
#[global] Instance Status_eq_dec : EqDecision Status.
Proof. solve_decision. Defined.
#[global] Instance Settlement_eq_dec : EqDecision Settlement.
Proof. solve_decision. Defined.
#[global] Instance Reaction_eq_dec : EqDecision Reaction.
Proof. solve_decision. Defined.

(** ** The state monad of the methods *)

Definition M (A : Type) : Type := State → A * State.

#[global] Instance M_ret : MRet M := λ A a s, (a, s).
#[global] Instance M_bind : MBind M :=
  λ A B k m s, let (a, s') := m s in k a s'.

Definition gets {A} (f : State → A) : M A := λ s, (f s, s).
Definition modify (f : State → State) : M unit := λ s, (tt, f s).

Definition with_this (f : ConcurrentScheduler → ConcurrentScheduler)
    (s : State) : State :=
  {| this := f (this s); heap := heap s;
     reactions := reactions s; console := console s |}.

Definition with_heap (f : list TaskWrapper → list TaskWrapper)
    (s : State) : State :=
  {| this := this s; heap := f (heap s);
     reactions := reactions s; console := console s |}.

Definition with_reactions (f : list Reaction → list Reaction)
    (s : State) : State :=
  {| this := this s; heap := heap s;
     reactions := f (reactions s); console := console s |}.

Definition with_console (f : list LogEntry → list LogEntry)
    (s : State) : State :=
  {| this := this s; heap := heap s;
     reactions := reactions s; console := f (console s) |}.

Definition set_runningCount (c : Z) (t : ConcurrentScheduler) :=
  {| maxConcurrent := maxConcurrent t; runningCount := c;
     taskQueue := taskQueue t; taskId := taskId t |}.

Definition set_taskQueue (q : list addr) (t : ConcurrentScheduler) :=
  {| maxConcurrent := maxConcurrent t; runningCount := runningCount t;
     taskQueue := q; taskId := taskId t |}.

Definition set_taskId (n : Z) (t : ConcurrentScheduler) :=
  {| maxConcurrent := maxConcurrent t; runningCount := runningCount t;
     taskQueue := taskQueue t; taskId := n |}.

Definition set_status (st : Status) (w : TaskWrapper) :=
  {| id := id w; task := task w; handle := handle w; status := st |}.

Definition add_settlement (o : Settlement) (w : TaskWrapper) :=
  {| id := id w; task := task w; handle := handle w ++ [o];
     status := status w |}.

Definition set_id (n : Z) (w : TaskWrapper) :=
  {| id := n; task := task w; handle := handle w; status := status w |}.

Definition set_task (t : Value) (w : TaskWrapper) :=
  {| id := id w; task := t; handle := handle w; status := status w |}.

(** [++this.taskId] *)
Definition incr_taskId : M Z :=
  n ← gets (λ s, (taskId (this s) + 1)%Z);
  modify (with_this (set_taskId n));;
  mret n.

(** The object literal: a fresh wrapper at the next free address. *)
Definition new_object (w : TaskWrapper) : M addr :=
  a ← gets (λ s, length (heap s));
  modify (with_heap (λ h, h ++ [w]));;
  mret a.

(** [this.taskQueue.push(w)] *)
Definition push (w : addr) : M unit :=
  modify (with_this (λ t, set_taskQueue (taskQueue t ++ [w]) t)).

(** [this.taskQueue.shift()]: [undefined] (here [None]) on an empty queue. *)
Definition shift : M (option addr) :=
  q ← gets (λ s, taskQueue (this s));
  match q with
  | [] => mret None
  | w :: q' => modify (with_this (set_taskQueue q'));; mret (Some w)
  end.

(** [this.runningCount++] and [this.runningCount--] *)
Definition incr_runningCount : M unit :=
  modify (with_this (λ t, set_runningCount (runningCount t + 1)%Z t)).
Definition decr_runningCount : M unit :=
  modify (with_this (λ t, set_runningCount (runningCount t - 1)%Z t)).

(** [w.status = st] *)
Definition write_status (w : addr) (st : Status) : M unit :=
  modify (with_heap (alter (set_status st) w)).

(** [w.resolve(v)] and [w.reject(e)] *)
Definition resolve (w : addr) (v : Value) : M unit :=
  modify (with_heap (alter (add_settlement (Resolved v)) w)).
Definition reject (w : addr) (e : Value) : M unit :=
  modify (with_heap (alter (add_settlement (Rejected e)) w)).

Definition console_log (e : LogEntry) : M unit :=
  modify (with_console (λ c, c ++ [e])).

(** Registering a callback on a promise. *)
Definition register (r : Reaction) : M unit :=
  modify (with_reactions (λ p, r :: p)).

(** ** The class *)

(** [constructor(maxConcurrent = 3)]: the default applies when the argument
    is left out. *)
Definition constructor (arg : option Z) : Completion State :=
  let maxConcurrent := default 3%Z arg in
  Normal {| this := {| maxConcurrent := maxConcurrent; runningCount := 0;
                       taskQueue := []; taskId := 0 |};
            heap := []; reactions := []; console := [] |}.

Definition executeNext : M unit :=
  c ← gets (λ s, runningCount (this s));
  m ← gets (λ s, maxConcurrent (this s));
  if (c >=? m)%Z then mret tt
  else
    nextTask ← shift;
    match nextTask with
    | None => mret tt
    | Some nextTask =>
        incr_runningCount;;
        write_status nextTask running;;
        i ← gets (λ s, id (heap s !!! nextTask));
        c ← gets (λ s, runningCount (this s));
        console_log (LogStart i c);;
        register (RInvoke nextTask)
    end.

(** [addTask(task)]: the executor of the new promise runs at once.  The
    result is the returned promise, named by the wrapper that holds its
    [resolve] and [reject]. *)
Definition addTask (task : Value) : M addr :=
  taskId ← incr_taskId;
  taskWrapper ← new_object {| id := taskId; task := task;
                              handle := []; status := pending |};
  push taskWrapper;;
  executeNext;;
  mret taskWrapper.

(** [.then(result => { ... })] *)
Definition on_fulfilled (nextTask : addr) (result : Value) : M unit :=
  write_status nextTask completed;;
  resolve nextTask result.

(** [.catch(error => { ... })] *)
Definition on_rejected (nextTask : addr) (error : Value) : M unit :=
  write_status nextTask failed;;
  reject nextTask error.

(** [.finally(() => { ... })] *)
Definition on_finally (nextTask : addr) : M unit :=
  decr_runningCount;;
  i ← gets (λ s, id (heap s !!! nextTask));
  c ← gets (λ s, runningCount (this s));
  console_log (LogDone i c);;
  executeNext.

Record StatusReport := {
  rep_maxConcurrent : Z;
  rep_running : Z;
  rep_waiting : nat;
  rep_tasks : list (Z * Status)
}.

Definition getStatus : M StatusReport :=
  t ← gets this;
  h ← gets heap;
  mret {| rep_maxConcurrent := maxConcurrent t;
          rep_running := runningCount t;
          rep_waiting := length (taskQueue t);
          rep_tasks := (λ w, (id (h !!! w), status (h !!! w))) <$> taskQueue t |}.

(** ** The event loop *)

(** What a work can do with the wrapper that [nextTask.task()] passes to it
    as [this]. *)
Inductive Use :=
  | CallResolve (v : Value)     (* this.resolve(v) *)
  | CallReject (e : Value)      (* this.reject(e) *)
  | SetId (n : Z)               (* this.id = n *)
  | SetTask (t : Value)         (* this.task = t *)
  | SetStatus (st : Status).    (* this.status = st *)

Definition use_wrapper (u : Use) : TaskWrapper → TaskWrapper :=
  match u with
  | CallResolve v => add_settlement (Resolved v)
  | CallReject e => add_settlement (Rejected e)
  | SetId n => set_id n
  | SetTask t => set_task t
  | SetStatus st => set_status st
  end.

(** One turn of the event loop. *)
Inductive Event :=
  | EvAddTask (task : Value)                 (* a caller submits [task] *)
  | EvInvoke (nextTask : addr)               (* the work is called *)
  | EvThen (nextTask : addr) (result : Value)  (* the work produced [result] *)
  | EvCatch (nextTask : addr) (error : Value)  (* the work failed with [error] *)
  | EvFinally (nextTask : addr)
  | EvWork (nextTask : addr) (u : Use).      (* the work uses its [this] *)

(** Takes one registered callback out of the pool, if it is there. *)
Fixpoint take (r : Reaction) (p : list Reaction) : option (list Reaction) :=
  match p with
  | [] => None
  | r' :: p' => if decide (r = r') then Some p' else (r' ::.) <$> take r p'
  end.

(** The turn that runs callback [r] (then [k]), enabled when [r] is
    registered. *)
Definition fire (r : Reaction) (k : M unit) (s : State) : option State :=
  p ← take r (reactions s);
  Some (snd (k (with_reactions (λ _, p) s))).

(** The work of the wrapper at [w] has been called, so it holds the wrapper:
    the wrapper exists, has left the queue, and the callback that calls the
    work is no longer registered. *)
Definition called (w : addr) (s : State) : bool :=
  bool_decide (w < length (heap s) ∧ (w ∉ taskQueue (this s)) ∧
               (RInvoke w ∉ reactions s)).

Definition step (ev : Event) (s : State) : option State :=
  match ev with
  | EvAddTask task => Some (snd (addTask task s))
  | EvInvoke w => fire (RInvoke w) (register (RSettle w)) s
  | EvThen w result =>
      fire (RSettle w) (on_fulfilled w result;; register (RFinally w)) s
  | EvCatch w error =>
      fire (RSettle w) (on_rejected w error;; register (RFinally w)) s
  | EvFinally w => fire (RFinally w) (on_finally w) s
  | EvWork w u =>
      if called w s then Some (with_heap (alter (use_wrapper u) w) s)
      else None
  end.

Fixpoint run (tr : list Event) (s : State) : option State :=
  match tr with
  | [] => Some s
  | ev :: tr' => s' ← step ev s; run tr' s'
  end.

(** State [s] is where run [tr] takes a scheduler built with argument
    [arg]. *)
Definition reaches (arg : option Z) (tr : list Event) (s : State) : Prop :=
  ∃ s0, constructor arg = Normal s0 ∧ run tr s0 = Some s.

(** ** Observations used in the statements *)

(** The wrappers that their work has used as [this] during a run. *)
Definition touched (tr : list Event) : list addr :=
  omap (λ ev, match ev with EvWork w _ => Some w | _ => None end) tr.

(** The wrappers whose [finally] callback has run during a run, in order. *)
Definition released (tr : list Event) : list addr :=
  omap (λ ev, match ev with EvFinally w => Some w | _ => None end) tr.

(** A turn in which a callback of the promise chain runs. *)
Definition is_callback (ev : Event) : bool :=
  match ev with
  | EvInvoke _ | EvThen _ _ | EvCatch _ _ | EvFinally _ => true
  | EvAddTask _ | EvWork _ _ => false
  end.

(** The turns of a run in which a callback of a promise chain runs. *)
Definition callbacks_of (tr : list Event) : list Event :=
  filter (λ ev, is_callback ev) tr.

(** Every call made to [resolve] or [reject] of the wrapper at [w] during a
    run, by the callbacks of the scheduler and by the work through [this]. *)
Definition calls (w : addr) (tr : list Event) : list Settlement :=
  omap (λ ev, match ev with
              | EvThen w' v | EvWork w' (CallResolve v) =>
                  if decide (w' = w) then Some (Resolved v) else None
              | EvCatch w' e | EvWork w' (CallReject e) =>
                  if decide (w' = w) then Some (Rejected e) else None
              | _ => None
              end) tr.


(** The wrapper a registered callback works on. *)
Definition target (r : Reaction) : addr :=
  match r with RInvoke w | RSettle w | RFinally w => w end.

(** The ids of the tasks started so far, in the order of the lines that
    [executeNext] logs when it starts a task. *)
Definition started (c : list LogEntry) : list Z :=
  omap (λ e, match e with LogStart i _ => Some i | LogDone _ _ => None end) c.

(** How many tasks have been started. *)
Definition dispatched (s : State) : nat := length (started (console s)).

(** The ids of the queued wrappers, head first. *)
Definition queued_ids (s : State) : list Z :=
  (λ w, id (heap s !!! w)) <$> taskQueue (this s).

(** The id that the [n]-th submission (counting from 0) receives. *)
Definition nth_id (n : nat) : Z := (Z.of_nat n + 1)%Z.


Definition terminal (st : Status) : Prop := st = completed ∨ st = failed.

Definition is_submission (ev : Event) : bool :=
  match ev with EvAddTask _ => true | _ => false end.

(** Nothing left to do: empty queue, nothing running, no callback
    registered, and every task that its work has left alone (not in [T]) is
    finished with its promise settled by one call. *)
Definition drained (T : list addr) (s : State) : Prop :=
  taskQueue (this s) = [] ∧ runningCount (this s) = 0%Z ∧
  reactions s = [] ∧
  ∀ a w, heap s !! a = Some w → a ∉ T →
    terminal (status w) ∧ length (handle w) = 1.

(** The turns a registered callback still owes until its task has given its
    slot back, and an upper bound for a whole state (4 for a queued task). *)
Definition owed (r : Reaction) : nat :=
  match r with RInvoke _ => 3 | RSettle _ => 2 | RFinally _ => 1 end.

Definition work_left (s : State) : nat :=
  sum_list (owed <$> reactions s) + 4 * length (taskQueue (this s)).

(** ** The states between the steps of a method *)

(** The state after [executeNext] has started the wrapper [w]. *)
Definition start_task (w : addr) (q : list addr) (s : State) : State :=
  {| this := {| maxConcurrent := maxConcurrent (this s);
                runningCount := runningCount (this s) + 1;
                taskQueue := q;
                taskId := taskId (this s) |};
     heap := alter (set_status running) w (heap s);
     reactions := RInvoke w :: reactions s;
     console := console s ++
       [LogStart (id (heap s !!! w)) (runningCount (this s) + 1)] |}.

(** The state in which [addTask] calls [executeNext]. *)
Definition enqueue (t : Value) (s : State) : State :=
  {| this := {| maxConcurrent := maxConcurrent (this s);
                runningCount := runningCount (this s);
                taskQueue := taskQueue (this s) ++ [length (heap s)];
                taskId := taskId (this s) + 1 |};
     heap := heap s ++ [{| id := taskId (this s) + 1; task := t;
                           handle := []; status := pending |}];
     reactions := reactions s;
     console := console s |}.

(** The state in which the [finally] callback calls [executeNext]. *)
Definition release (w : addr) (p : list Reaction) (s : State) : State :=
  {| this := {| maxConcurrent := maxConcurrent (this s);
                runningCount := runningCount (this s) - 1;
                taskQueue := taskQueue (this s);
                taskId := taskId (this s) |};
     heap := heap s;
     reactions := p;
     console := console s ++
       [LogDone (id (heap s !!! w)) (runningCount (this s) - 1)] |}.

(** The state after the [then] or the [catch] callback of [w]. *)
Definition settle (w : addr) (st : Status) (o : Settlement)
    (p : list Reaction) (s : State) : State :=
  {| this := this s;
     heap := alter (add_settlement o) w (alter (set_status st) w (heap s));
     reactions := RFinally w :: p;
     console := console s |}.

(** ** The invariant of the scheduler *)

(** The work of wrapper [a] has been scheduled and has not reported yet. *)
Definition inflight (a : addr) (p : list Reaction) : Prop :=
  RInvoke a ∈ p ∨ RSettle a ∈ p.

(** What the wrapper at address [a] looks like when [k] tasks have been
    started and [p] are the registered callbacks. *)
Definition wrapper_ok (k : nat) (p : list Reaction) (a : addr)
    (w : TaskWrapper) : Prop :=
  id w = nth_id a ∧
  if decide (a < k) then
    match status w with
    | pending => False
    | running => handle w = [] ∧ inflight a p
    | completed => (∃ v, handle w = [Resolved v]) ∧ ¬ inflight a p
    | failed => (∃ e, handle w = [Rejected e]) ∧ ¬ inflight a p
    end
  else status w = pending ∧ handle w = [].

(** The invariant, for a scheduler with bound [m] when the works of the
    wrappers [T] have used their [this]: nothing is known of those wrappers. *)
Record consistent (m : Z) (T : list addr) (s : State) : Prop := {
  cons_max : maxConcurrent (this s) = m;
  cons_taskId : taskId (this s) = Z.of_nat (length (heap s));
  cons_dispatched : dispatched s ≤ length (heap s);
  cons_queue :
    taskQueue (this s) = seq (dispatched s) (length (heap s) - dispatched s);
  cons_started : started (console s) = nth_id <$> seq 0 (dispatched s);
  cons_count : runningCount (this s) = Z.of_nat (length (reactions s));
  cons_bound : (runningCount (this s) ≤ Z.max 0 m)%Z;
  cons_nodup : NoDup (target <$> reactions s);
  cons_live : ∀ r, r ∈ reactions s → target r < dispatched s;
  cons_heap :
    ∀ a w, heap s !! a = Some w → a ∉ T →
      wrapper_ok (dispatched s) (reactions s) a w;
  cons_touched :
    ∀ a, a ∈ T → a < dispatched s ∧ RInvoke a ∉ reactions s
}.

(** The scheduler is work conserving: a task waits only when all slots are
    taken. *)
Definition busy (s : State) : Prop :=
  taskQueue (this s) ≠ [] → (maxConcurrent (this s) ≤ runningCount (this s))%Z.

(** The ids of the tasks whose [finally] callback has run, in the order of
    the lines that the callback logs. *)
Definition finished (c : list LogEntry) : list Z :=
  omap (λ e, match e with LogDone i _ => Some i | LogStart _ _ => None end) c.

(** Slots taken and given back, when the works of [T] have used their
    [this] and the [finally] callbacks of [F] have run, in that order. *)
Record balanced (T F : list addr) (s : State) : Prop := {
  bal_count :
    runningCount (this s) =
      (Z.of_nat (length (started (console s))) -
       Z.of_nat (length (finished (console s))))%Z;
  bal_logged :
    Forall2 (λ i a, a ∉ T → i = nth_id a) (finished (console s)) F;
  bal_nodup : NoDup F;
  bal_done :
    ∀ a, a ∈ F →
      a < dispatched s ∧ ∀ r, r ∈ reactions s → target r ≠ a
}.

(** No task has been started and none is running. *)
Definition blocked (s : State) : Prop :=
  runningCount (this s) = 0%Z ∧ reactions s = [] ∧ console s = [].

(** ** Comparing runs and states *)

(** The calls made so far to [resolve] or [reject] of the wrapper at [a]. *)
Definition handle_of (a : addr) (s : State) : list Settlement :=
  from_option handle [] (heap s !! a).




(** A run in which no task is submitted. *)
Definition completions_only (tr : list Event) : bool :=
  forallb (λ ev, negb (is_submission ev)) tr.

(** ** Concrete runs *)

(** The state after run [tr] of a scheduler built with [arg]. *)
Definition state_after (arg : option Z) (tr : list Event) : option State :=
  match constructor arg with
  | Normal s0 => run tr s0
  | Throw _ => None
  end.

(** Four submissions to a scheduler with two slots; the second task succeeds
    and gives its slot to the third. *)
Definition before_failure : list Event :=
  [EvAddTask (VFun 1); EvAddTask (VFun 2); EvAddTask (VFun 3);
   EvAddTask (VFun 4); EvInvoke 0; EvInvoke 1; EvThen 1 (VStr "r2");
   EvFinally 1].

(** The same run up to the [finally] callback of the second task: the third
    and the fourth task wait. *)
Definition before_handover : list Event :=
  [EvAddTask (VFun 1); EvAddTask (VFun 2); EvAddTask (VFun 3);
   EvAddTask (VFun 4); EvInvoke 0; EvInvoke 1; EvThen 1 (VStr "r2")].

Definition before_handover_state : State :=
  {| this := {| maxConcurrent := 2; runningCount := 2;
                taskQueue := [2; 3]; taskId := 4 |};
     heap :=
       [{| id := 1; task := VFun 1; handle := []; status := running |};
        {| id := 2; task := VFun 2; handle := [Resolved (VStr "r2")];
           status := completed |};
        {| id := 3; task := VFun 3; handle := []; status := pending |};
        {| id := 4; task := VFun 4; handle := []; status := pending |}];
     reactions := [RFinally 1; RSettle 0];
     console := [LogStart 1 1; LogStart 2 2] |}.

(** Then the first task fails; it holds its slot until its [finally]
    callback runs. *)
Definition four_tasks : list Event :=
  before_failure ++ [EvCatch 0 (VStr "boom")].

Definition before_failure_state : State :=
  {| this := {| maxConcurrent := 2; runningCount := 2;
                taskQueue := [3]; taskId := 4 |};
     heap :=
       [{| id := 1; task := VFun 1; handle := []; status := running |};
        {| id := 2; task := VFun 2; handle := [Resolved (VStr "r2")];
           status := completed |};
        {| id := 3; task := VFun 3; handle := []; status := running |};
        {| id := 4; task := VFun 4; handle := []; status := pending |}];
     reactions := [RInvoke 2; RSettle 0];
     console := [LogStart 1 1; LogStart 2 2; LogDone 2 1; LogStart 3 2] |}.

Definition four_tasks_state : State :=
  {| this := {| maxConcurrent := 2; runningCount := 2;
                taskQueue := [3]; taskId := 4 |};
     heap :=
       [{| id := 1; task := VFun 1; handle := [Rejected (VStr "boom")];
           status := failed |};
        {| id := 2; task := VFun 2; handle := [Resolved (VStr "r2")];
           status := completed |};
        {| id := 3; task := VFun 3; handle := []; status := running |};
        {| id := 4; task := VFun 4; handle := []; status := pending |}];
     reactions := [RFinally 0; RInvoke 2];
     console := [LogStart 1 1; LogStart 2 2; LogDone 2 1; LogStart 3 2] |}.

(** Two submissions to a scheduler built with no slot at all. *)
Definition no_slot_state : State :=
  {| this := {| maxConcurrent := 0; runningCount := 0;
                taskQueue := [0; 1]; taskId := 2 |};
     heap :=
       [{| id := 1; task := VFun 1; handle := []; status := pending |};
        {| id := 2; task := VFun 2; handle := []; status := pending |}];
     reactions := [];
     console := [] |}.



(** Two submissions to a scheduler with three slots; the work of the first
    is [function () { this.id = 2 }]. *)
Definition renumbers : list Event :=
  [EvAddTask (VFun 1); EvAddTask (VFun 2); EvInvoke 0; EvWork 0 (SetId 2)].

Definition renumbers_state : State :=
  {| this := {| maxConcurrent := 3; runningCount := 2;
                taskQueue := []; taskId := 2 |};
     heap :=
       [{| id := 2; task := VFun 1; handle := []; status := running |};
        {| id := 2; task := VFun 2; handle := []; status := running |}];
     reactions := [RSettle 0; RInvoke 1];
     console := [LogStart 1 1; LogStart 2 2] |}.

(** ** Further observations *)

(** The order in which [status] is written: ['pending'] in [addTask],
    ['running'] in [executeNext], ['completed'] or ['failed'] in the [then]
    and [catch] callbacks. *)
Definition status_le (st st' : Status) : bool :=
  match st, st' with
  | pending, _ => true
  | running, pending => false
  | running, _ => true
  | completed, completed => true
  | failed, failed => true
  | _, _ => false
  end.

(** How the wrapper [w'] may differ from the earlier [w]: same [id] and
    [task], a status that is the same or later, settlements only added, and
    nothing changed once the task is ['completed'] or ['failed']. *)
Definition later_than (w w' : TaskWrapper) : Prop :=
  id w' = id w ∧ task w' = task w ∧
  status_le (status w) (status w') = true ∧
  handle w `prefix_of` handle w' ∧
  (terminal (status w) → w' = w).

(** The callables passed to [addTask] during a run, in order. *)
Definition submitted (tr : list Event) : list Value :=
  omap (λ ev, match ev with EvAddTask t => Some t | _ => None end) tr.

(** Whether a turn is taken by a callback of the chain of the wrapper at
    [a]. *)
Definition about (a : addr) (ev : Event) : bool :=
  match ev with
  | EvAddTask _ | EvWork _ _ => false
  | EvInvoke w | EvThen w _ | EvCatch w _ | EvFinally w => bool_decide (w = a)
  end.

(** The turns of a run taken by the callbacks of the wrapper at [a]. *)
Definition turns_of (a : addr) (tr : list Event) : list Event :=
  filter (λ ev, about a ev) tr.

(** The turn in which the callbacks of [a] receive outcome [o]. *)
Definition settle_event (a : addr) (o : Settlement) : Event :=
  match o with
  | Resolved v => EvThen a v
  | Rejected e => EvCatch a e
  end.

(** All the turns of a started task whose work ends with [o]. *)
Definition lifecycle (a : addr) (o : Settlement) : list Event :=
  [EvInvoke a; settle_event a o; EvFinally a].

(** How far the chain of wrapper [a] has come, read off the callbacks [p]
    that are registered when [k] tasks have been started. *)
Definition chain_ok (a : addr) (evs : list Event) (p : list Reaction)
    (k : nat) : Prop :=
  (evs = [] ∧ (RSettle a ∉ p) ∧ (RFinally a ∉ p) ∧
     (a < k → RInvoke a ∈ p)) ∨
  (evs = [EvInvoke a] ∧ RSettle a ∈ p) ∨
  (∃ o, evs = [EvInvoke a; settle_event a o] ∧ RFinally a ∈ p) ∨
  (∃ o, evs = lifecycle a o ∧ a < k ∧ ∀ r, r ∈ p → target r ≠ a).







(** The value of [runningCount] printed in a console line. *)
Definition logged_count (e : LogEntry) : Z :=
  match e with LogStart _ c | LogDone _ c => c end.

(** The counts that a scheduler with bound [m] can print. *)
Definition log_entry_ok (m : Z) (e : LogEntry) : Prop :=
  match e with
  | LogStart _ c => (1 ≤ c ≤ m)%Z
  | LogDone _ c => (0 ≤ c ≤ m - 1)%Z
  end.

(** The value of [runningCount] in the last console line, 0 when nothing has
    been printed. *)
Definition last_logged_count (c : list LogEntry) : Z :=
  from_option logged_count 0%Z (last c).

(** What the console shows of the count of a scheduler with bound [m]. *)
Definition console_ok (m : Z) (s : State) : Prop :=
  Forall (log_entry_ok m) (console s) ∧
  last_logged_count (console s) = runningCount (this s).

(** A run that consists of the submissions [ts] only. *)
Definition burst (ts : list Value) : list Event := EvAddTask <$> ts.

(** Three submissions to a scheduler with one slot. *)
Definition one_slot_state : State :=
  {| this := {| maxConcurrent := 1; runningCount := 1;
                taskQueue := [1; 2]; taskId := 3 |};
     heap :=
       [{| id := 1; task := VFun 1; handle := []; status := running |};
        {| id := 2; task := VFun 2; handle := []; status := pending |};
        {| id := 3; task := VFun 3; handle := []; status := pending |}];
     reactions := [RInvoke 0];
     console := [LogStart 1 1] |}.

(** * Proofs *)

(** ** What one call of each method does to the state *)

(** Runs the monadic code of a method on the state at hand. *)
Ltac exec :=
  cbv [mbind mret M_bind M_ret gets modify incr_taskId new_object push shift
       incr_runningCount decr_runningCount write_status resolve reject
       console_log register with_this with_heap with_reactions with_console
       set_runningCount set_taskQueue set_taskId on_fulfilled on_rejected
       on_finally];
  cbn [this heap reactions console maxConcurrent runningCount taskQueue taskId
       fst snd].

Lemma executeNext_idle (s : State) :
  (maxConcurrent (this s) ≤ runningCount (this s))%Z ∨ taskQueue (this s) = [] →
  executeNext s = (tt, s).
Proof.
  destruct s as [[m c q n] h p l]; cbn.
  intros [Hle | ->]; unfold executeNext; exec.
  - destruct (Z.geb_spec c m); [done | lia].
  - destruct (c >=? m)%Z; done.
Qed.

Lemma id_alter_status (st : Status) (w a : addr) (h : list TaskWrapper) :
  id (alter (set_status st) w h !!! a) = id (h !!! a).
Proof.
  rewrite list_lookup_total_alter. by case_decide as H; [destruct H as [-> _]|].
Qed.

Lemma executeNext_start (s : State) (w : addr) (q : list addr) :
  (runningCount (this s) < maxConcurrent (this s))%Z →
  taskQueue (this s) = w :: q →
  executeNext s = (tt, start_task w q s).
Proof.
  destruct s as [[m c q0 n] h p l]; cbn. intros Hlt ->.
  unfold executeNext; exec.
  destruct (Z.geb_spec c m); [lia|].
  unfold start_task; cbn. by rewrite id_alter_status.
Qed.

Lemma executeNext_cases (s : State) :
  ((maxConcurrent (this s) ≤ runningCount (this s))%Z ∨ taskQueue (this s) = []) ∧
    executeNext s = (tt, s)
  ∨ (runningCount (this s) < maxConcurrent (this s))%Z ∧
    ∃ w q, taskQueue (this s) = w :: q ∧ executeNext s = (tt, start_task w q s).
Proof.
  destruct (decide (maxConcurrent (this s) ≤ runningCount (this s))%Z) as [Hle|Hlt].
  - left. split; [by left|]. apply executeNext_idle. by left.
  - destruct (taskQueue (this s)) as [|w q] eqn:Hq.
    + left. split; [by right|]. apply executeNext_idle. by right.
    + right. split; [lia|]. exists w, q. split; [done|].
      apply executeNext_start; [lia | done].
Qed.

Lemma addTask_unfold (t : Value) (s : State) :
  addTask t s = (length (heap s), snd (executeNext (enqueue t s))).
Proof.
  destruct s as [[m c q n] h p l]. unfold addTask; exec.
  unfold enqueue; cbn. by destruct (executeNext _) as [[] s'].
Qed.

Lemma step_addTask (t : Value) (s : State) :
  step (EvAddTask t) s = Some (snd (executeNext (enqueue t s))).
Proof. cbn [step]. by rewrite addTask_unfold. Qed.

Lemma step_invoke (w : addr) (s : State) :
  step (EvInvoke w) s =
    p ← take (RInvoke w) (reactions s);
    Some (with_reactions (λ _, RSettle w :: p) s).
Proof. cbn [step]. unfold fire. destruct (take _ _); [|done]. by exec. Qed.

Lemma step_then (w : addr) (v : Value) (s : State) :
  step (EvThen w v) s =
    p ← take (RSettle w) (reactions s);
    Some (settle w completed (Resolved v) p s).
Proof. cbn [step]. unfold fire. destruct (take _ _); [|done]. by exec. Qed.

Lemma step_catch (w : addr) (e : Value) (s : State) :
  step (EvCatch w e) s =
    p ← take (RSettle w) (reactions s);
    Some (settle w failed (Rejected e) p s).
Proof. cbn [step]. unfold fire. destruct (take _ _); [|done]. by exec. Qed.

Lemma step_finally (w : addr) (s : State) :
  step (EvFinally w) s =
    p ← take (RFinally w) (reactions s);
    Some (snd (executeNext (release w p s))).
Proof.
  cbn [step]. unfold fire. destruct (take _ _) as [p|]; [|done]. exec.
  unfold release; cbn. by destruct (executeNext _) as [[] s'].
Qed.

Lemma take_Some (r : Reaction) (p p' : list Reaction) :
  take r p = Some p' → p ≡ₚ r :: p'.
Proof.
  revert p'. induction p as [|r' p IH]; intros p' H; [done|].
  cbn in H. destruct (decide (r = r')) as [->|Hne].
  - by injection H as ->.
  - destruct (take r p) as [p0|]; [|done]. injection H as <-.
    rewrite (IH p0 eq_refl). apply Permutation_swap.
Qed.

Lemma called_spec (w : addr) (s : State) :
  called w s = true ↔
  w < length (heap s) ∧ (w ∉ taskQueue (this s)) ∧ (RInvoke w ∉ reactions s).
Proof. unfold called. apply bool_decide_eq_true. Qed.

Lemma step_work (w : addr) (u : Use) (s s' : State) :
  step (EvWork w u) s = Some s' ↔
  called w s = true ∧ s' = with_heap (alter (use_wrapper u) w) s.
Proof.
  cbn [step]. destruct (called w s); split; try done.
  - by intros [= <-].
  - by intros [_ ->].
  - by intros [? _].
Qed.

(** ** The invariant is kept by every turn *)

Lemma wrapper_ok_inflight (k : nat) (p p' : list Reaction) (a : addr)
    (w : TaskWrapper) :
  (inflight a p ↔ inflight a p') → wrapper_ok k p a w → wrapper_ok k p' a w.
Proof.
  unfold wrapper_ok. intros Hiff [Hid Hst]. split; [done|].
  case_decide; [|done]. destruct (status w); naive_solver.
Qed.

Lemma started_snoc_start (c : list LogEntry) (i n : Z) :
  started (c ++ [LogStart i n]) = started c ++ [i].
Proof. unfold started. by rewrite omap_app. Qed.

Lemma started_snoc_done (c : list LogEntry) (i n : Z) :
  started (c ++ [LogDone i n]) = started c.
Proof. unfold started. rewrite omap_app. cbn. by rewrite app_nil_r. Qed.

Lemma inflight_other (a b : addr) (r : Reaction) (p : list Reaction) :
  target r = b → a ≠ b → (inflight a (r :: p) ↔ inflight a p).
Proof.
  unfold inflight. intros <- Hne. rewrite !elem_of_cons.
  destruct r; cbn in Hne; naive_solver.
Qed.

(** Opens the turn of a callback: [Hstep] says that the turn was possible;
    [p] are the callbacks left once the one that runs is taken out. *)
Ltac callback_turn Hstep p Hp :=
  first [ rewrite step_invoke in Hstep | rewrite step_then in Hstep
        | rewrite step_catch in Hstep | rewrite step_finally in Hstep ];
  destruct (take _ _) as [p|] eqn:Hp; [|done];
  injection Hstep as <-.

Section Invariant.

Context (m : Z) (T : list addr).

Lemma consistent_head (s : State) (w : addr) (q : list addr) :
  consistent m T s → taskQueue (this s) = w :: q →
  w = dispatched s ∧ dispatched s < length (heap s) ∧
  q = seq (S (dispatched s)) (length (heap s) - S (dispatched s)).
Proof.
  intros Hc Hq. rewrite (cons_queue _ _ _ Hc) in Hq.
  destruct (length (heap s) - dispatched s) as [|n] eqn:Hn; [done|].
  cbn in Hq. injection Hq as <- <-.
  split; [done|]. split; [lia|]. f_equal. lia.
Qed.

Lemma consistent_start (s : State) (w : addr) (q : list addr) :
  consistent m T s →
  (runningCount (this s) < maxConcurrent (this s))%Z →
  taskQueue (this s) = w :: q →
  consistent m T (start_task w q s).
Proof.
  intros Hc Hlt Hq.
  destruct (consistent_head _ _ _ Hc Hq) as (-> & Hk & Hqe).
  destruct (lookup_lt_is_Some_2 _ _ Hk) as [w0 Hw0].
  assert (HkT : dispatched s ∉ T).
  { intros [Hlt' _]%(cons_touched _ _ _ Hc). lia. }
  pose proof (cons_heap _ _ _ Hc _ _ Hw0 HkT) as [Hid0 Hst0].
  rewrite decide_False in Hst0 by lia. destruct Hst0 as [Hpend Hh0].
  assert (Hd : dispatched (start_task (dispatched s) q s) = S (dispatched s)).
  { unfold dispatched, start_task; cbn.
    rewrite started_snoc_start, length_app. cbn. lia. }
  pose proof (cons_max _ _ _ Hc) as Hm.
  split; rewrite ?Hd; cbn -[seq].
  - done.
  - rewrite length_alter. apply (cons_taskId _ _ _ Hc).
  - rewrite length_alter. lia.
  - by rewrite length_alter.
  - rewrite started_snoc_start, (cons_started _ _ _ Hc), seq_S, fmap_app. cbn.
    by rewrite (list_lookup_total_correct _ _ _ Hw0), Hid0.
  - rewrite (cons_count _ _ _ Hc). lia.
  - lia.
  - apply NoDup_cons. split; [|apply (cons_nodup _ _ _ Hc)].
    intros (r & Hr & Hin)%list_elem_of_fmap.
    apply (cons_live _ _ _ Hc) in Hin. lia.
  - intros r [->|Hin]%elem_of_cons; cbn; [lia|].
    apply (cons_live _ _ _ Hc) in Hin. lia.
  - intros a w. rewrite list_lookup_alter. case_decide as Ha.
    + subst a. rewrite Hw0. cbn. intros [= <-] _.
      split; [done|]. rewrite decide_True by lia. cbn.
      split; [done|]. left. apply elem_of_cons. by left.
    + intros Hw HaT.
      pose proof (cons_heap _ _ _ Hc _ _ Hw HaT) as [Hid Hst].
      split; [done|]. destruct (decide (a < dispatched s)) as [Hak|Hak].
      * rewrite decide_True by lia.
        assert (Hi : inflight a (reactions s) ↔
                     inflight a (RInvoke (dispatched s) :: reactions s)).
        { symmetry. by apply (inflight_other _ (dispatched s)). }
        destruct (status w); naive_solver.
      * rewrite decide_False by lia. done.
  - intros a HaT. destruct (cons_touched _ _ _ Hc a HaT) as [Hlt' Hno].
    split; [lia|]. intros [[= ->]|Hin]%elem_of_cons; [lia|done].
Qed.

Lemma consistent_enqueue (t : Value) (s : State) :
  consistent m T s → consistent m T (enqueue t s).
Proof.
  intros Hc. pose proof (cons_dispatched _ _ _ Hc) as Hk.
  assert (Hd : dispatched (enqueue t s) = dispatched s) by done.
  assert (Hl : length (heap (enqueue t s)) = S (length (heap s))).
  { cbn. rewrite length_app. cbn. lia. }
  split; rewrite ?Hd, ?Hl.
  - apply (cons_max _ _ _ Hc).
  - cbn. rewrite (cons_taskId _ _ _ Hc). lia.
  - lia.
  - cbn -[seq]. rewrite (cons_queue _ _ _ Hc).
    replace (S (length (heap s)) - dispatched s)
      with (S (length (heap s) - dispatched s)) by lia.
    rewrite seq_S. do 2 f_equal. lia.
  - apply (cons_started _ _ _ Hc).
  - apply (cons_count _ _ _ Hc).
  - apply (cons_bound _ _ _ Hc).
  - apply (cons_nodup _ _ _ Hc).
  - apply (cons_live _ _ _ Hc).
  - cbn. intros a w [Hw|[Ha Hw]]%lookup_app_Some HaT.
    + by apply (cons_heap _ _ _ Hc _ _ Hw).
    + apply list_lookup_singleton_Some in Hw as [Hz <-].
      assert (a = length (heap s)) as -> by lia.
      split; cbn.
      * rewrite (cons_taskId _ _ _ Hc). done.
      * rewrite decide_False by lia. done.
  - apply (cons_touched _ _ _ Hc).
Qed.

Lemma inflight_perm (a : addr) (p p' : list Reaction) :
  p ≡ₚ p' → (inflight a p ↔ inflight a p').
Proof. unfold inflight. by intros ->. Qed.

Lemma consistent_release (s : State) (w : addr) (p : list Reaction) :
  consistent m T s → reactions s ≡ₚ RFinally w :: p →
  consistent m T (release w p s).
Proof.
  intros Hc Hp.
  assert (Hd : dispatched (release w p s) = dispatched s).
  { unfold dispatched, release; cbn. by rewrite started_snoc_done. }
  pose proof (cons_count _ _ _ Hc) as Hn. pose proof (cons_bound _ _ _ Hc) as Hb.
  pose proof (cons_nodup _ _ _ Hc) as Hnd. rewrite Hp in Hn, Hnd. cbn in Hn.
  apply NoDup_cons in Hnd as [Hw Hnd].
  assert (Hsub : ∀ r, r ∈ p → r ∈ reactions s).
  { intros r Hr. rewrite Hp. apply elem_of_cons. by right. }
  split; rewrite ?Hd.
  - apply (cons_max _ _ _ Hc).
  - apply (cons_taskId _ _ _ Hc).
  - apply (cons_dispatched _ _ _ Hc).
  - apply (cons_queue _ _ _ Hc).
  - cbn. rewrite started_snoc_done. apply (cons_started _ _ _ Hc).
  - cbn. lia.
  - cbn. lia.
  - done.
  - intros r Hr. apply (cons_live _ _ _ Hc), Hsub, Hr.
  - cbn. intros a w' Hw' HaT.
    apply (wrapper_ok_inflight _ (reactions s));
      [|by apply (cons_heap _ _ _ Hc)].
    rewrite (inflight_perm _ _ _ Hp). unfold inflight.
    rewrite !elem_of_cons. naive_solver.
  - cbn. intros a HaT. destruct (cons_touched _ _ _ Hc a HaT) as [Hlt' Hno].
    split; [done|]. intros Hin. by apply Hno, Hsub.
Qed.

Lemma consistent_invoke (s : State) (w : addr) (p : list Reaction) :
  consistent m T s → reactions s ≡ₚ RInvoke w :: p →
  consistent m T (with_reactions (λ _, RSettle w :: p) s).
Proof.
  intros Hc Hp.
  pose proof (cons_count _ _ _ Hc) as Hn.
  pose proof (cons_nodup _ _ _ Hc) as Hnd. rewrite Hp in Hn, Hnd. cbn in Hn.
  assert (Hlive : ∀ r, r ∈ RInvoke w :: p → target r < dispatched s).
  { intros r Hr. apply (cons_live _ _ _ Hc). by rewrite Hp. }
  split; try apply Hc.
  - cbn in *. lia.
  - done.
  - cbn. intros r [->|Hr]%elem_of_cons.
    + apply (Hlive (RInvoke w)), elem_of_cons. by left.
    + apply Hlive, elem_of_cons. by right.
  - cbn. intros a w' Hw' HaT.
    apply (wrapper_ok_inflight _ (reactions s));
      [|by apply (cons_heap _ _ _ Hc)].
    rewrite (inflight_perm _ _ _ Hp). unfold inflight.
    rewrite !elem_of_cons. naive_solver.
  - cbn. intros a HaT. destruct (cons_touched _ _ _ Hc a HaT) as [Hlt' Hno].
    split; [done|]. intros [?|Hin]%elem_of_cons; [done|].
    apply Hno. rewrite Hp. apply elem_of_cons. by right.
Qed.

Lemma consistent_settle (s : State) (w : addr) (st : Status)
    (o : Settlement) (p : list Reaction) :
  consistent m T s → reactions s ≡ₚ RSettle w :: p →
  (st = completed ∧ (∃ v, o = Resolved v) ∨ st = failed ∧ (∃ e, o = Rejected e)) →
  consistent m T (settle w st o p s).
Proof.
  intros Hc Hp Hst.
  pose proof (cons_count _ _ _ Hc) as Hn.
  pose proof (cons_nodup _ _ _ Hc) as Hnd. rewrite Hp in Hn, Hnd. cbn in Hn.
  assert (Hlive : ∀ r, r ∈ RSettle w :: p → target r < dispatched s).
  { intros r Hr. apply (cons_live _ _ _ Hc). by rewrite Hp. }
  assert (Hwk : w < dispatched s).
  { apply (Hlive (RSettle w)), elem_of_cons. by left. }
  assert (Hgone : ¬ inflight w (RFinally w :: p)).
  { apply NoDup_cons in Hnd as [Hw _]. unfold inflight.
    rewrite !elem_of_cons.
    intros [[?|Hin]|[?|Hin]]; try done;
      apply Hw, list_elem_of_fmap; eexists; (split; [|exact Hin]); done. }
  assert (Hd : dispatched (settle w st o p s) = dispatched s) by done.
  split; rewrite ?Hd; unfold settle; cbn [this heap reactions console];
    rewrite ?length_alter; try apply Hc.
  - cbn in *. lia.
  - done.
  - intros r [->|Hr]%elem_of_cons; [done|].
    apply Hlive, elem_of_cons. by right.
  - intros a w'. rewrite list_lookup_alter. case_decide as Ha.
    + subst a. rewrite list_lookup_alter_eq.
      intros (w1 & (w0 & Hw0 & ->)%fmap_Some & ->)%fmap_Some HaT.
      pose proof (cons_heap _ _ _ Hc _ _ Hw0 HaT) as [Hid Hold].
      rewrite decide_True in Hold by done.
      assert (Hfl : inflight w (reactions s)).
      { right. rewrite Hp. apply elem_of_cons. by left. }
      assert (Hrun : status w0 = running ∧ handle w0 = []).
      { destruct (status w0); naive_solver. }
      destruct Hrun as [_ Hh]. split; [done|].
      rewrite decide_True by done. cbn. rewrite Hh. cbn.
      destruct Hst as [[-> [v ->]]|[-> [e ->]]]; (split; [by eexists|done]).
    + rewrite list_lookup_alter_ne by done. intros Hw' HaT.
      apply (wrapper_ok_inflight _ (reactions s));
        [|by apply (cons_heap _ _ _ Hc)].
      rewrite (inflight_perm _ _ _ Hp).
      rewrite (inflight_other _ w (RSettle w)), (inflight_other _ w (RFinally w));
        done.
  - intros a HaT. destruct (cons_touched _ _ _ Hc a HaT) as [Hlt' Hno].
    split; [done|]. intros [?|Hin]%elem_of_cons; [done|].
    apply Hno. rewrite Hp. apply elem_of_cons. by right.
Qed.

Lemma consistent_executeNext (s : State) :
  consistent m T s → consistent m T (snd (executeNext s)).
Proof.
  intros Hc. destruct (executeNext_cases s) as [[_ ->]|(Hlt & w & q & Hq & ->)];
    [done|]. by apply consistent_start.
Qed.

Lemma busy_executeNext (s : State) :
  consistent m T s →
  (∀ w q, taskQueue (this s) = w :: q → q ≠ [] →
     (maxConcurrent (this s) ≤ runningCount (this s) + 1)%Z) →
  busy (snd (executeNext s)).
Proof.
  intros Hc Hpre.
  destruct (executeNext_cases s) as [[[Hle|Hq] ->]|(Hlt & w & q & Hq & ->)];
    unfold busy; cbn.
  - done.
  - done.
  - intros Hne. apply (Hpre _ _ Hq Hne).
Qed.

Lemma consistent_work (s : State) (w : addr) (u : Use) :
  consistent m T s → called w s = true →
  consistent m (T ++ [w]) (with_heap (alter (use_wrapper u) w) s).
Proof.
  intros Hc (Hlt & Hq & Hno)%called_spec.
  assert (Hk : w < dispatched s).
  { rewrite (cons_queue _ _ _ Hc), elem_of_seq in Hq. lia. }
  split; try apply Hc.
  - cbn. rewrite length_alter. apply (cons_taskId _ _ _ Hc).
  - change (dispatched (with_heap (alter (use_wrapper u) w) s))
      with (dispatched s). cbn. rewrite length_alter.
    apply (cons_dispatched _ _ _ Hc).
  - change (dispatched (with_heap (alter (use_wrapper u) w) s))
      with (dispatched s). cbn -[seq]. rewrite length_alter.
    apply (cons_queue _ _ _ Hc).
  - cbn. intros a w' Hw' HaT. rewrite elem_of_app in HaT.
    rewrite list_lookup_alter_ne in Hw'.
    + apply (cons_heap _ _ _ Hc _ _ Hw'). tauto.
    + intros ->. apply HaT. right. by apply list_elem_of_singleton.
  - intros a [HaT| ->%list_elem_of_singleton]%elem_of_app.
    + apply (cons_touched _ _ _ Hc a HaT).
    + done.
Qed.

End Invariant.

(** ** Every state reached satisfies the invariant *)

Lemma touched_cons (ev : Event) (tr : list Event) :
  touched (ev :: tr) = touched [ev] ++ touched tr.
Proof. unfold touched. by rewrite <- omap_app. Qed.

Lemma touched_app (tr1 tr2 : list Event) :
  touched (tr1 ++ tr2) = touched tr1 ++ touched tr2.
Proof. unfold touched. by rewrite omap_app. Qed.

Lemma step_invariant (m : Z) (T : list addr) (ev : Event) (s s' : State) :
  consistent m T s → busy s → step ev s = Some s' →
  consistent m (T ++ touched [ev]) s' ∧ busy s'.
Proof.
  intros Hc Hb Hstep. destruct ev as [t|w|w v|w e|w|w u];
    cbn [touched omap list_omap]; rewrite ?app_nil_r.
  - rewrite step_addTask in Hstep. injection Hstep as <-.
    pose proof (consistent_enqueue _ _ t _ Hc) as Hc'.
    split; [by apply consistent_executeNext|].
    apply (busy_executeNext _ _ _ Hc'). cbn. intros w q Hq Hne.
    enough (maxConcurrent (this s) ≤ runningCount (this s))%Z by lia.
    apply Hb. intros Hnil. rewrite Hnil in Hq. cbn in Hq.
    injection Hq as _ <-. done.
  - callback_turn Hstep p Hp.
    split; [by apply consistent_invoke, take_Some|done].
  - callback_turn Hstep p Hp.
    split; [apply consistent_settle; [done|by apply take_Some|]|done].
    left. eauto.
  - callback_turn Hstep p Hp.
    split; [apply consistent_settle; [done|by apply take_Some|]|done].
    right. eauto.
  - callback_turn Hstep p Hp.
    pose proof (consistent_release _ _ _ w _ Hc (take_Some _ _ _ Hp)) as Hc'.
    split; [by apply consistent_executeNext|].
    apply (busy_executeNext _ _ _ Hc'). cbn. intros w' q Hq Hne.
    enough (maxConcurrent (this s) ≤ runningCount (this s))%Z by lia.
    apply Hb. by rewrite Hq.
  - apply step_work in Hstep as [Hcalled ->].
    split; [by apply consistent_work|done].
Qed.

Lemma run_invariant (m : Z) (T : list addr) (tr : list Event)
    (s s' : State) :
  consistent m T s → busy s → run tr s = Some s' →
  consistent m (T ++ touched tr) s' ∧ busy s'.
Proof.
  revert T s. induction tr as [|ev tr IH]; intros T s Hc Hb Hrun.
  - injection Hrun as <-. by rewrite app_nil_r.
  - cbn in Hrun. destruct (step ev s) as [s1|] eqn:Hstep; [|done].
    destruct (step_invariant _ _ _ _ _ Hc Hb Hstep) as [Hc1 Hb1].
    rewrite touched_cons, app_assoc. by apply (IH _ s1).
Qed.

Lemma run_app (tr1 tr2 : list Event) (s : State) :
  run (tr1 ++ tr2) s = s' ← run tr1 s; run tr2 s'.
Proof.
  revert s. induction tr1 as [|ev tr1 IH]; intros s; [done|].
  cbn. destruct (step ev s) as [s1|]; [apply IH | done].
Qed.

Lemma reaches_app (arg : option Z) (tr tr2 : list Event) (s s2 : State) :
  reaches arg tr s → run tr2 s = Some s2 → reaches arg (tr ++ tr2) s2.
Proof.
  intros (s0 & H0 & Hrun) Hrun2. exists s0. split; [done|].
  by rewrite run_app, Hrun.
Qed.


Lemma constructor_normal (arg : option Z) (s0 : State) :
  constructor arg = Normal s0 →
  s0 = {| this := {| maxConcurrent := default 3%Z arg; runningCount := 0;
                     taskQueue := []; taskId := 0 |};
          heap := []; reactions := []; console := [] |}.
Proof. by intros [= <-]. Qed.

Lemma initial_invariant (arg : option Z) (s0 : State) :
  constructor arg = Normal s0 → consistent (default 3%Z arg) [] s0 ∧ busy s0.
Proof.
  intros ->%constructor_normal. split; [|by intros Hq; destruct Hq].
  split; cbn; try done.
  - lia.
  - apply NoDup_nil_2.
  - by intros r ?%elem_of_nil.
  - by intros a ?%elem_of_nil.
Qed.

Lemma reaches_invariant (arg : option Z) (tr : list Event) (s : State) :
  reaches arg tr s → consistent (default 3%Z arg) (touched tr) s ∧ busy s.
Proof.
  intros (s0 & H0 & Hrun).
  destruct (initial_invariant _ _ H0) as [Hc Hb].
  apply (run_invariant _ [] tr s0); done.
Qed.

(** ** Slots taken and slots given back *)

Lemma finished_snoc_start (c : list LogEntry) (i n : Z) :
  finished (c ++ [LogStart i n]) = finished c.
Proof. unfold finished. rewrite omap_app. cbn. by rewrite app_nil_r. Qed.

Lemma finished_snoc_done (c : list LogEntry) (i n : Z) :
  finished (c ++ [LogDone i n]) = finished c ++ [i].
Proof. unfold finished. by rewrite omap_app. Qed.

Lemma nth_id_inj (a b : nat) : nth_id a = nth_id b → a = b.
Proof. unfold nth_id. lia. Qed.

Lemma released_cons (ev : Event) (tr : list Event) :
  released (ev :: tr) = released [ev] ++ released tr.
Proof. unfold released. by rewrite <- omap_app. Qed.

Lemma balanced_same_targets (T F : list addr) (s s' : State) :
  this s' = this s → console s' = console s →
  (∀ a, a ∈ target <$> reactions s' → a ∈ target <$> reactions s) →
  balanced T F s → balanced T F s'.
Proof.
  intros Ht Hl Hsub [Hn Hlog Hnd Hdone]. unfold dispatched in *.
  split; rewrite ?Ht, ?Hl; [done..|].
  intros a Ha. destruct (Hdone a Ha) as [Hlt Hfree].
  split; [unfold dispatched; by rewrite Hl|].
  intros r Hr <-.
  assert (Hin : target r ∈ target <$> reactions s).
  { apply Hsub, list_elem_of_fmap. by exists r. }
  apply list_elem_of_fmap in Hin as (r' & Heq & Hr').
  by apply (Hfree r' Hr').
Qed.

Lemma balanced_touch (T F : list addr) (w : addr) (s : State) :
  balanced T F s → balanced (T ++ [w]) F s.
Proof.
  intros [Hn Hlog Hnd Hdone]. split; [done| |done..].
  eapply Forall2_impl; [exact Hlog|]. cbn. intros i a Hi Ha.
  apply Hi. intros HaT. apply Ha, elem_of_app. by left.
Qed.

Lemma balanced_start (m : Z) (T F : list addr) (s : State) (w : addr)
    (q : list addr) :
  consistent m T s → balanced T F s → taskQueue (this s) = w :: q →
  balanced T F (start_task w q s).
Proof.
  intros Hc [Hn Hlog Hnd Hdone] Hq.
  destruct (consistent_head _ _ _ _ _ Hc Hq) as (-> & Hk & _).
  unfold dispatched in *.
  split; cbn; rewrite ?finished_snoc_start, ?started_snoc_start, ?length_app.
  - cbn. lia.
  - done.
  - done.
  - intros a Ha. destruct (Hdone a Ha) as [Hlt Hfree].
    split; [cbn; lia|].
    intros r [->|Hr]%elem_of_cons; [cbn; lia|by apply Hfree].
Qed.

Lemma balanced_release (m : Z) (T F : list addr) (s : State) (w : addr)
    (p : list Reaction) :
  consistent m T s → balanced T F s → reactions s ≡ₚ RFinally w :: p →
  balanced T (F ++ [w]) (release w p s).
Proof.
  intros Hc [Hn Hlog Hnd Hdone] Hp.
  assert (Hin : RFinally w ∈ reactions s).
  { rewrite Hp. apply elem_of_cons. by left. }
  pose proof (cons_live _ _ _ Hc _ Hin) as Hwk. cbn in Hwk.
  pose proof (cons_dispatched _ _ _ Hc) as Hk.
  destruct (lookup_lt_is_Some_2 (heap s) w) as [w0 Hw0]; [lia|].
  pose proof (cons_nodup _ _ _ Hc) as Hnd'. rewrite Hp in Hnd'. cbn in Hnd'.
  apply NoDup_cons in Hnd' as [Hfresh _].
  unfold dispatched in *.
  split; cbn; rewrite ?finished_snoc_done, ?started_snoc_done, ?length_app,
    ?(list_lookup_total_correct _ _ _ Hw0).
  - cbn. lia.
  - apply Forall2_app; [done|]. constructor; [|constructor].
    intros HwT. by destruct (cons_heap _ _ _ Hc _ _ Hw0 HwT) as [Hid _].
  - apply NoDup_app. split; [done|]. split; [|apply NoDup_singleton].
    intros a Ha ->%list_elem_of_singleton.
    destruct (Hdone _ Ha) as [_ Hfree]. by apply (Hfree _ Hin).
  - intros a [Ha| ->%list_elem_of_singleton]%elem_of_app.
    + destruct (Hdone a Ha) as [Hlt Hfree].
      split; [done|]. intros r Hr.
      apply Hfree. rewrite Hp. apply elem_of_cons. by right.
    + split; [done|]. intros r Hr Heq.
      apply Hfresh, list_elem_of_fmap. by exists r.
Qed.

Lemma balanced_executeNext (m : Z) (T F : list addr) (s : State) :
  consistent m T s → balanced T F s → balanced T F (snd (executeNext s)).
Proof.
  intros Hc Hb.
  destruct (executeNext_cases s) as [[_ ->]|(Hlt & w & q & Hq & ->)]; [done|].
  by eapply balanced_start.
Qed.

Lemma balanced_step (m : Z) (T F : list addr) (ev : Event) (s s' : State) :
  consistent m T s → balanced T F s → step ev s = Some s' →
  balanced (T ++ touched [ev]) (F ++ released [ev]) s'.
Proof.
  intros Hc Hb Hstep. destruct ev as [t|w|w v|w e|w|w u];
    cbn [touched released omap list_omap]; rewrite ?app_nil_r.
  - rewrite step_addTask in Hstep. injection Hstep as <-.
    apply (balanced_executeNext m); [by apply consistent_enqueue|].
    destruct Hb as [Hn Hlog Hnd Hdone]. by split.
  - callback_turn Hstep p Hp.
    apply (balanced_same_targets _ _ s); [done..| |done].
    cbn. intros a. by rewrite (take_Some _ _ _ Hp).
  - callback_turn Hstep p Hp.
    apply (balanced_same_targets _ _ s); [done..| |done].
    cbn. intros a. by rewrite (take_Some _ _ _ Hp).
  - callback_turn Hstep p Hp.
    apply (balanced_same_targets _ _ s); [done..| |done].
    cbn. intros a. by rewrite (take_Some _ _ _ Hp).
  - callback_turn Hstep p Hp.
    pose proof (take_Some _ _ _ Hp) as Hperm.
    apply (balanced_executeNext m); [by apply consistent_release|].
    by eapply balanced_release.
  - apply step_work in Hstep as [_ ->]. apply balanced_touch.
    by apply (balanced_same_targets _ _ s).
Qed.

Lemma balanced_run (m : Z) (T F : list addr) (tr : list Event)
    (s s' : State) :
  consistent m T s → busy s → balanced T F s → run tr s = Some s' →
  balanced (T ++ touched tr) (F ++ released tr) s'.
Proof.
  revert T F s. induction tr as [|ev tr IH]; intros T F s Hc Hb Hbal Hrun.
  - injection Hrun as <-. by rewrite !app_nil_r.
  - cbn in Hrun. destruct (step ev s) as [s1|] eqn:Hstep; [|done].
    destruct (step_invariant _ _ _ _ _ Hc Hb Hstep) as [Hc1 Hb1].
    rewrite touched_cons, released_cons, !app_assoc.
    apply (IH _ _ s1); try done. by apply (balanced_step m T F ev s).
Qed.

Lemma reaches_balanced (arg : option Z) (tr : list Event) (s : State) :
  reaches arg tr s → balanced (touched tr) (released tr) s.
Proof.
  intros (s0 & H0 & Hrun).
  destruct (initial_invariant _ _ H0) as [Hc Hb].
  apply (balanced_run (default 3%Z arg) [] [] tr s0); try done.
  apply constructor_normal in H0 as ->. split; cbn; [done| | |].
  - constructor.
  - apply NoDup_nil_2.
  - by intros i ?%elem_of_nil.
Qed.

(** ** The concrete runs are runs *)

Example four_tasks_run :
  state_after (Some 2%Z) four_tasks = Some four_tasks_state.
Proof. reflexivity. Qed.

Example before_failure_run :
  state_after (Some 2%Z) before_failure = Some before_failure_state.
Proof. reflexivity. Qed.

Example no_slot_run :
  state_after (Some 0%Z) [EvAddTask (VFun 1); EvAddTask (VFun 2)] =
    Some no_slot_state.
Proof. reflexivity. Qed.

Example before_handover_run :
  state_after (Some 2%Z) before_handover = Some before_handover_state.
Proof. reflexivity. Qed.

Example renumbers_run :
  state_after None renumbers = Some renumbers_state.
Proof. reflexivity. Qed.

Lemma reaches_state_after (arg : option Z) (tr : list Event) (s : State) :
  reaches arg tr s ↔ state_after arg tr = Some s.
Proof.
  unfold reaches, state_after. split.
  - by intros (s0 & -> & Hrun).
  - destruct (constructor arg) as [s0|e]; [|done]. intros Hrun. by exists s0.
Qed.

(** ** The chain of one task *)

Lemma chain_ok_same (a : addr) (evs : list Event) (p1 p2 : list Reaction)
    (k k2 : nat) :
  (∀ r, target r = a → (r ∈ p2 ↔ r ∈ p1)) → (a < k ↔ a < k2) →
  chain_ok a evs p1 k → chain_ok a evs p2 k2.
Proof.
  intros Hsame Hk
    [(He & H1 & H2 & H3)|[(He & H1)|[(o & He & H1)|(o & He & H1 & H2)]]].
  - left. split; [done|]. rewrite !Hsame by done. tauto.
  - right; left. split; [done|]. by rewrite Hsame.
  - right; right; left. exists o. split; [done|]. by rewrite Hsame.
  - right; right; right. exists o. split; [done|]. split; [tauto|].
    intros r Hr Ht. apply (H2 r); [|done]. by apply Hsame.
Qed.

Lemma turns_of_one (a : addr) (ev : Event) :
  turns_of a [ev] = if about a ev then [ev] else [].
Proof. unfold turns_of. rewrite filter_cons, filter_nil. by destruct (about a ev). Qed.

Lemma turns_of_cons (a : addr) (ev : Event) (tr : list Event) :
  turns_of a (ev :: tr) = turns_of a [ev] ++ turns_of a tr.
Proof. unfold turns_of. by rewrite <- filter_app. Qed.

Section Chain.

Context (m : Z).

Lemma chain_executeNext (T : list addr) (s : State) (a : addr) (evs : list Event) :
  consistent m T s →
  chain_ok a evs (reactions s) (dispatched s) →
  chain_ok a evs (reactions (snd (executeNext s)))
    (dispatched (snd (executeNext s))).
Proof.
  intros Hc Hch.
  destruct (executeNext_cases s) as [[_ ->]|(_ & w & q & Hq & ->)]; [done|].
  destruct (consistent_head _ _ _ _ _ Hc Hq) as (-> & Hk & _).
  assert (Hd : dispatched (start_task (dispatched s) q s) = S (dispatched s)).
  { unfold dispatched, start_task; cbn.
    rewrite started_snoc_start, length_app. cbn. lia. }
  cbn [snd]. rewrite Hd. cbn [start_task reactions].
  assert (Hlive : ∀ r, r ∈ reactions s → target r ≠ dispatched s).
  { intros r Hr%(cons_live _ _ _ Hc). lia. }
  destruct (decide (a = dispatched s)) as [->|Hne].
  - destruct Hch as
      [(He & H1 & H2 & _)|[(He & H1)|[(o & He & H1)|(o & He & H1 & H2)]]].
    + left. split; [done|]. rewrite !elem_of_cons. naive_solver.
    + by destruct (Hlive _ H1).
    + by destruct (Hlive _ H1).
    + lia.
  - apply (chain_ok_same a evs (reactions s) _ (dispatched s)); [|lia|done].
    intros r Hr. rewrite elem_of_cons. split; [|by right].
    intros [->|?]; [|done]. cbn in Hr. congruence.
Qed.

(** What the turn of callback [r] of wrapper [a] does to the chain of [a]
    when it leaves callback [r'] registered in its place, or none. *)
Lemma chain_turn_other (T : list addr) (s : State) (a w : addr) (evs : list Event)
    (r : Reaction) (p p2 : list Reaction) :
  reactions s ≡ₚ r :: p → target r = w → a ≠ w →
  (∀ r', target r' = a → (r' ∈ p2 ↔ r' ∈ p)) →
  chain_ok a evs (reactions s) (dispatched s) →
  chain_ok a evs p2 (dispatched s).
Proof.
  intros Hp Hr Hne Hp2. apply chain_ok_same; [|done].
  intros r' Hr'. rewrite Hp2, Hp, elem_of_cons by done.
  split; [by right|]. intros [->|?]; [|done]. congruence.
Qed.

Lemma chain_step (T : list addr) (ev : Event) (s s' : State) (a : addr) (evs : list Event) :
  consistent m T s → step ev s = Some s' →
  chain_ok a evs (reactions s) (dispatched s) →
  chain_ok a (evs ++ turns_of a [ev]) (reactions s') (dispatched s').
Proof.
  intros Hc Hstep Hch. rewrite turns_of_one.
  assert (Hfresh : ∀ r p, reactions s ≡ₚ r :: p →
            ∀ r', r' ∈ p → target r' ≠ target r).
  { intros r p Hp r' Hr' Heq. pose proof (cons_nodup _ _ _ Hc) as Hnd.
    rewrite Hp in Hnd. cbn in Hnd. apply NoDup_cons in Hnd as [Hnin _].
    apply Hnin. rewrite <- Heq. apply list_elem_of_fmap. by exists r'. }
  destruct ev as [t|w|w v|w e|w|w u]; cbn [about].
  - rewrite app_nil_r. rewrite step_addTask in Hstep. injection Hstep as <-.
    apply (chain_executeNext T); [by apply consistent_enqueue|done].
  - callback_turn Hstep p Hp. pose proof (take_Some _ _ _ Hp) as Hperm.
    pose proof (Hfresh _ _ Hperm) as Hf. cbn in Hf.
    change (dispatched (with_reactions (λ _, RSettle w :: p) s))
      with (dispatched s). cbn [with_reactions reactions].
    case_bool_decide as Ha.
    + subst a. right; left.
      destruct Hch as [(-> & _)|[(_ & H1)|[(o & _ & H1)|(o & _ & _ & H2)]]].
      * split; [done|]. apply elem_of_cons. by left.
      * rewrite Hperm in H1. apply elem_of_cons in H1 as [?|H1]; [done|].
        by destruct (Hf _ H1).
      * rewrite Hperm in H1. apply elem_of_cons in H1 as [?|H1]; [done|].
        by destruct (Hf _ H1).
      * destruct (H2 (RInvoke w)); [|done]. rewrite Hperm.
        apply elem_of_cons. by left.
    + rewrite app_nil_r.
      apply (chain_turn_other T s a w evs (RInvoke w) p); try done.
      intros r' Hr'. rewrite elem_of_cons. split; [|by right].
      intros [->|?]; [|done]. cbn in Hr'. congruence.
  - callback_turn Hstep p Hp. pose proof (take_Some _ _ _ Hp) as Hperm.
    pose proof (Hfresh _ _ Hperm) as Hf. cbn in Hf.
    change (dispatched (settle w completed (Resolved v) p s))
      with (dispatched s). cbn [settle reactions].
    case_bool_decide as Ha.
    + subst a. right; right; left. exists (Resolved v).
      destruct Hch as [(_ & H1 & _)|[(-> & _)|[(o & _ & H1)|(o & _ & _ & H2)]]].
      * destruct H1. rewrite Hperm. apply elem_of_cons. by left.
      * split; [done|]. apply elem_of_cons. by left.
      * rewrite Hperm in H1. apply elem_of_cons in H1 as [?|H1]; [done|].
        by destruct (Hf _ H1).
      * destruct (H2 (RSettle w)); [|done]. rewrite Hperm.
        apply elem_of_cons. by left.
    + rewrite app_nil_r.
      apply (chain_turn_other T s a w evs (RSettle w) p); try done.
      intros r' Hr'. rewrite elem_of_cons. split; [|by right].
      intros [->|?]; [|done]. cbn in Hr'. congruence.
  - callback_turn Hstep p Hp. pose proof (take_Some _ _ _ Hp) as Hperm.
    pose proof (Hfresh _ _ Hperm) as Hf. cbn in Hf.
    change (dispatched (settle w failed (Rejected e) p s))
      with (dispatched s). cbn [settle reactions].
    case_bool_decide as Ha.
    + subst a. right; right; left. exists (Rejected e).
      destruct Hch as [(_ & H1 & _)|[(-> & _)|[(o & _ & H1)|(o & _ & _ & H2)]]].
      * destruct H1. rewrite Hperm. apply elem_of_cons. by left.
      * split; [done|]. apply elem_of_cons. by left.
      * rewrite Hperm in H1. apply elem_of_cons in H1 as [?|H1]; [done|].
        by destruct (Hf _ H1).
      * destruct (H2 (RSettle w)); [|done]. rewrite Hperm.
        apply elem_of_cons. by left.
    + rewrite app_nil_r.
      apply (chain_turn_other T s a w evs (RSettle w) p); try done.
      intros r' Hr'. rewrite elem_of_cons. split; [|by right].
      intros [->|?]; [|done]. cbn in Hr'. congruence.
  - callback_turn Hstep p Hp. pose proof (take_Some _ _ _ Hp) as Hperm.
    pose proof (Hfresh _ _ Hperm) as Hf. cbn in Hf.
    apply (chain_executeNext T); [by apply consistent_release|].
    assert (Hd : dispatched (release w p s) = dispatched s).
    { unfold dispatched, release; cbn. by rewrite started_snoc_done. }
    rewrite Hd. cbn [release reactions].
    case_bool_decide as Ha.
    + subst a. right; right; right.
      assert (Hin : RFinally w ∈ reactions s).
      { rewrite Hperm. apply elem_of_cons. by left. }
      pose proof (cons_live _ _ _ Hc _ Hin) as Hk. cbn in Hk.
      destruct Hch as
        [(_ & _ & H1 & _)|[(_ & H1)|[(o & -> & _)|(o & _ & _ & H2)]]].
      * by destruct H1.
      * rewrite Hperm in H1. apply elem_of_cons in H1 as [?|H1]; [done|].
        by destruct (Hf _ H1).
      * exists o. split; [done|]. split; [done|]. intros r Hr. by apply Hf.
      * by destruct (H2 (RFinally w)).
    + rewrite app_nil_r.
      apply (chain_turn_other T s a w evs (RFinally w) p); done.
  - rewrite app_nil_r. by apply step_work in Hstep as [_ ->].
Qed.

Lemma chain_run (T : list addr) (tr : list Event) (s s' : State) (a : addr)
    (evs : list Event) :
  consistent m T s → busy s → run tr s = Some s' →
  chain_ok a evs (reactions s) (dispatched s) →
  chain_ok a (evs ++ turns_of a tr) (reactions s') (dispatched s').
Proof.
  revert T s evs. induction tr as [|ev tr IH]; intros T s evs Hc Hb Hrun Hch.
  - injection Hrun as <-. by rewrite app_nil_r.
  - cbn in Hrun. destruct (step ev s) as [s1|] eqn:Hstep; [|done].
    destruct (step_invariant _ _ _ _ _ Hc Hb Hstep) as [Hc1 Hb1].
    rewrite turns_of_cons, app_assoc.
    apply (IH (T ++ touched [ev]) s1); try done. by apply (chain_step T ev s).
Qed.

End Chain.

Lemma reaches_chain (arg : option Z) (tr : list Event) (s : State)
    (a : addr) :
  reaches arg tr s → chain_ok a (turns_of a tr) (reactions s) (dispatched s).
Proof.
  intros (s0 & H0 & Hrun). destruct (initial_invariant _ _ H0) as [Hc0 Hb0].
  apply (chain_run (default 3%Z arg) [] tr s0 s a [] Hc0 Hb0 Hrun).
  apply constructor_normal in H0 as ->. left. cbn.
  split; [done|]. split; [apply not_elem_of_nil|].
  split; [apply not_elem_of_nil|]. unfold dispatched. cbn. lia.
Qed.






(** ** C1: the running count stays within the bound *)

(** C1, as stated, fails: a scheduler built with [maxConcurrent = -1] has
    [runningCount = 0], which is above its bound, from the start. *)
Lemma C1_negative_bound_counterexample :
  ∃ s, reaches (Some (-1)%Z) [] s ∧
       ¬ (0 ≤ runningCount (this s) ≤ maxConcurrent (this s))%Z.
Proof.
  eexists. split; [eexists; split; reflexivity|]. cbn. lia.
Qed.

Lemma logged_untouched (T F : list addr) (l : list Z) :
  Forall2 (λ i a, a ∉ T → i = nth_id a) l F →
  (∀ a, a ∈ F → a ∉ T) → l = nth_id <$> F.
Proof.
  induction 1 as [|i a l F Hi _ IH]; intros Hun; [done|].
  cbn. f_equal.
  - apply Hi, Hun, elem_of_cons. by left.
  - apply IH. intros b Hb. apply Hun, elem_of_cons. by right.
Qed.

(** C1 (amended): for every scheduler built with [maxConcurrent ≥ 0] and
    every run of submissions, completions and uses of [this] by the works,
    [0 ≤ runningCount ≤ maxConcurrent] in every state reached.  [executeNext]
    changes nothing when [runningCount ≥ maxConcurrent]; the count is the
    number of tasks started minus the number of tasks whose [finally]
    callback has run, which is the number of callbacks still registered; no
    task gives its slot back twice, and only started tasks give one back.
    The ids logged by the [finally] callbacks are those of the tasks that
    gave a slot back, unless a work has assigned to [this.id]. *)
Theorem C1_running_count_within_bound (arg : option Z) (tr : list Event)
    (s : State) :
  (0 ≤ default 3 arg)%Z →
  reaches arg tr s →
  (0 ≤ runningCount (this s) ≤ maxConcurrent (this s))%Z ∧
  ((maxConcurrent (this s) ≤ runningCount (this s))%Z →
     executeNext s = (tt, s)) ∧
  runningCount (this s) =
    (Z.of_nat (length (started (console s))) -
     Z.of_nat (length (finished (console s))))%Z ∧
  runningCount (this s) = Z.of_nat (length (reactions s)) ∧
  length (finished (console s)) = length (released tr) ∧
  NoDup (released tr) ∧
  (∀ a, a ∈ released tr → a < dispatched s) ∧
  ((∀ a, a ∈ released tr → a ∉ touched tr) →
     finished (console s) = nth_id <$> released tr ∧
     NoDup (finished (console s)) ∧
     finished (console s) ⊆ started (console s)).
Proof.
  intros Hpos Hr.
  destruct (reaches_invariant _ _ _ Hr) as [Hc _].
  destruct (reaches_balanced _ _ _ Hr) as [Hn Hlog Hnd Hdone].
  pose proof (cons_count _ _ _ Hc) as Hcount.
  pose proof (cons_bound _ _ _ Hc) as Hbound.
  rewrite (cons_max _ _ _ Hc).
  split; [lia|]. split.
  { intros Hle. apply executeNext_idle. left. by rewrite (cons_max _ _ _ Hc). }
  split; [done|]. split; [done|].
  split; [by apply Forall2_length in Hlog|]. split; [done|].
  split; [intros a Ha; apply (Hdone a Ha)|].
  intros Hun. pose proof (logged_untouched _ _ _ Hlog Hun) as Heq.
  split; [done|]. rewrite Heq. split.
  - apply NoDup_fmap_2; [intros x y; apply nth_id_inj|exact Hnd].
  - intros i (a & -> & Ha)%list_elem_of_fmap.
    rewrite (cons_started _ _ _ Hc). apply list_elem_of_fmap. exists a.
    split; [done|]. apply elem_of_seq. destruct (Hdone a Ha). lia.
Qed.

(** The ids that the [finally] callbacks log need not be those ids: here the
    work of the first task assigns 2 to [this.id], and both lines show 2. *)
Example logged_ids_can_repeat :
  ∃ s, reaches None
         [EvAddTask (VFun 1); EvAddTask (VFun 2); EvInvoke 0; EvInvoke 1;
          EvWork 0 (SetId 2); EvThen 0 VUndefined; EvThen 1 VUndefined;
          EvFinally 0; EvFinally 1] s ∧
       finished (console s) = [2%Z; 2%Z] ∧ ¬ NoDup (finished (console s)).
Proof.
  eexists. split; [eexists; split; vm_compute; reflexivity|].
  split; [reflexivity|].
  intros [Hn _]%NoDup_cons. apply Hn, elem_of_cons. by left.
Qed.

(** C1 at the run [four_tasks] of a scheduler with two slots. *)
Lemma C1_running_count_within_bound_witness :
  (0 ≤ runningCount (this four_tasks_state)
     ≤ maxConcurrent (this four_tasks_state))%Z.
Proof.
  refine (proj1 (C1_running_count_within_bound (Some 2%Z) four_tasks
                   four_tasks_state _ _)).
  - cbn. lia.
  - eexists. split; reflexivity.
Defined.

(** ** C2: dispatch is first in, first out *)

(** A wrapper that has not been started has not been given to its work. *)
Lemma untouched_ge (m : Z) (T : list addr) (s : State) (a : addr) :
  consistent m T s → dispatched s ≤ a → a ∉ T.
Proof. intros Hc Hle [Hlt _]%(cons_touched _ _ _ Hc). lia. Qed.

Lemma queued_ids_seq (m : Z) (T : list addr) (s : State) :
  consistent m T s →
  queued_ids s = nth_id <$> seq (dispatched s) (length (heap s) - dispatched s).
Proof.
  intros Hc. unfold queued_ids. rewrite (cons_queue _ _ _ Hc).
  apply list_fmap_ext. intros i a [-> Hlt]%lookup_seq.
  destruct (lookup_lt_is_Some_2 (heap s) (dispatched s + i)) as [w Hw]; [lia|].
  rewrite (list_lookup_total_correct _ _ _ Hw).
  apply (cons_heap _ _ _ Hc _ _ Hw), (untouched_ge _ _ _ _ Hc). lia.
Qed.

Lemma started_queued_ids (m : Z) (T : list addr) (s : State) :
  consistent m T s →
  started (console s) ++ queued_ids s = nth_id <$> seq 0 (length (heap s)).
Proof.
  intros Hc. rewrite (queued_ids_seq _ _ _ Hc), (cons_started _ _ _ Hc).
  pose proof (cons_dispatched _ _ _ Hc) as Hk.
  rewrite <- fmap_app, <- seq_app. do 2 f_equal. lia.
Qed.

Lemma nth_id_seq_lookup (n i : nat) (x : Z) :
  (nth_id <$> seq 0 n) !! i = Some x ↔ x = nth_id i ∧ i < n.
Proof.
  rewrite list_lookup_fmap, fmap_Some. split.
  - intros (a & [-> Hlt]%lookup_seq & ->). done.
  - intros [-> Hlt]. exists i. split; [|done]. by apply lookup_seq.
Qed.

(** C2: when [executeNext] starts a task it takes the head of the queue; the
    head has the lowest id of all queued wrappers; and the ids of the tasks
    started so far, followed by the ids still queued, are 1, 2, ..., in
    submission order: tasks are started in ascending id order, and a queued
    task has a larger id than every task started before it.  So of two tasks
    queued at the same time, the one with the lower id is started first: once
    the other has been started, both are in the started list, the lower id
    before the higher. *)
Theorem C2_dispatch_is_fifo (arg : option Z) (tr : list Event) (s : State) :
  reaches arg tr s →
  (∀ s', executeNext s = (tt, s') →
     s' = s ∨
     ∃ w q, taskQueue (this s) = w :: q ∧ s' = start_task w q s ∧
            taskQueue (this s') = q ∧
            started (console s') = started (console s) ++ [id (heap s !!! w)]) ∧
  (∀ w q w', taskQueue (this s) = w :: q → w' ∈ q →
     (id (heap s !!! w) < id (heap s !!! w'))%Z) ∧
  started (console s) ++ queued_ids s = nth_id <$> seq 0 (length (heap s)) ∧
  (∀ i j x y, (started (console s) ++ queued_ids s) !! i = Some x →
     (started (console s) ++ queued_ids s) !! j = Some y →
     i < j → (x < y)%Z) ∧
  (∀ tr2 s2 a b, run tr2 s = Some s2 →
     a ∈ taskQueue (this s) → b ∈ taskQueue (this s) →
     (id (heap s !!! a) < id (heap s !!! b))%Z →
     id (heap s !!! b) ∈ started (console s2) →
     ∃ i j, i < j ∧
       started (console s2) !! i = Some (id (heap s !!! a)) ∧
       started (console s2) !! j = Some (id (heap s !!! b))).
Proof.
  intros Hr. destruct (reaches_invariant _ _ _ Hr) as [Hc Hb].
  pose proof (started_queued_ids _ _ _ Hc) as Hall.
  split; [|split; [|split; [|split]]].
  - intros s' Hs'.
    destruct (executeNext_cases s) as [[_ He]|(Hlt & w & q & Hq & He)];
      rewrite He in Hs'; injection Hs' as <-; [by left|].
    right. exists w, q. split; [done|]. split; [done|]. split; [done|].
    cbn. by rewrite started_snoc_start.
  - intros w q w' Hq Hw'.
    destruct (consistent_head _ _ _ _ _ Hc Hq) as (-> & Hk & ->).
    apply elem_of_seq in Hw' as [Hlo Hhi].
    destruct (lookup_lt_is_Some_2 (heap s) (dispatched s)) as [w0 Hw0]; [lia|].
    destruct (lookup_lt_is_Some_2 (heap s) w') as [w1 Hw1]; [lia|].
    rewrite (list_lookup_total_correct _ _ _ Hw0).
    rewrite (list_lookup_total_correct _ _ _ Hw1).
    destruct (cons_heap _ _ _ Hc _ _ Hw0) as [-> _];
      [apply (untouched_ge _ _ _ _ Hc); lia|].
    destruct (cons_heap _ _ _ Hc _ _ Hw1) as [-> _];
      [apply (untouched_ge _ _ _ _ Hc); lia|].
    unfold nth_id. lia.
  - done.
  - rewrite Hall. intros i j x y [-> _]%nth_id_seq_lookup
      [-> _]%nth_id_seq_lookup Hij. unfold nth_id. lia.
  - intros tr2 s2 a b Hrun Ha Hb' Hlt Hin.
    destruct (run_invariant _ _ _ _ _ Hc Hb Hrun) as [Hc2 _].
    assert (Hid : ∀ c, c ∈ taskQueue (this s) →
              id (heap s !!! c) = nth_id c).
    { intros c Hc'. rewrite (cons_queue _ _ _ Hc) in Hc'.
      apply elem_of_seq in Hc'.
      destruct (lookup_lt_is_Some_2 (heap s) c) as [w Hw]; [lia|].
      rewrite (list_lookup_total_correct _ _ _ Hw).
      apply (cons_heap _ _ _ Hc _ _ Hw), (untouched_ge _ _ _ _ Hc). lia. }
    rewrite (Hid a Ha), (Hid b Hb') in *.
    rewrite (cons_started _ _ _ Hc2) in *.
    apply list_elem_of_fmap in Hin as (b' & Heq%nth_id_inj & Hin).
    subst b'. apply elem_of_seq in Hin.
    exists a, b. unfold nth_id in Hlt.
    split; [lia|]. split; apply nth_id_seq_lookup; split; try done; lia.
Qed.

(** C2 at the run [four_tasks]: ids 1, 2, 3 started, id 4 queued. *)
Lemma C2_dispatch_is_fifo_witness :
  started (console four_tasks_state) ++ queued_ids four_tasks_state =
    nth_id <$> seq 0 (length (heap four_tasks_state)).
Proof.
  refine (proj1 (proj2 (proj2 (C2_dispatch_is_fifo (Some 2%Z) four_tasks
                                 four_tasks_state _)))).
  eexists. split; reflexivity.
Defined.

(** ** C3: the promise mirrors the outcome of the work *)

Lemma handle_of_alter_status (st : Status) (w a : addr) (s : State) :
  handle_of a (with_heap (alter (set_status st) w) s) = handle_of a s.
Proof.
  unfold handle_of. cbn. rewrite list_lookup_alter.
  case_decide as Ha; [subst a|done]. by destruct (heap s !! w).
Qed.

Lemma handle_of_executeNext (a : addr) (s : State) :
  handle_of a (snd (executeNext s)) = handle_of a s.
Proof.
  destruct (executeNext_cases s) as [[_ ->]|(_ & w & q & _ & ->)]; [done|].
  apply (handle_of_alter_status running w a s).
Qed.

Lemma handle_of_enqueue (a : addr) (t : Value) (s : State) :
  handle_of a (enqueue t s) = handle_of a s.
Proof.
  unfold handle_of. cbn. destruct (heap s !! a) as [w|] eqn:Hw.
  - by rewrite (lookup_app_l_Some _ _ _ _ Hw).
  - apply lookup_ge_None in Hw. rewrite lookup_app_r by done.
    by destruct (a - length (heap s)) as [|[|n]].
Qed.

Lemma handle_of_settle (a w : addr) (st : Status) (o : Settlement)
    (p : list Reaction) (s : State) :
  w < length (heap s) →
  handle_of a (settle w st o p s) =
    handle_of a s ++ (if decide (w = a) then [o] else []).
Proof.
  intros [w0 Hw0]%lookup_lt_is_Some_2. unfold handle_of. cbn.
  case_decide as Ha.
  - subst a. by rewrite !list_lookup_alter_eq, Hw0.
  - by rewrite !list_lookup_alter_ne, app_nil_r.
Qed.

Lemma handle_of_work (a w : addr) (u : Use) (s : State) :
  w < length (heap s) →
  handle_of a (with_heap (alter (use_wrapper u) w) s) =
    handle_of a s ++ calls a [EvWork w u].
Proof.
  intros [w0 Hw0]%lookup_lt_is_Some_2. unfold handle_of, calls. cbn.
  destruct (decide (w = a)) as [->|Ha].
  - rewrite list_lookup_alter_eq, Hw0.
    destruct u; cbn; rewrite ?decide_True, ?app_nil_r by done; done.
  - rewrite list_lookup_alter_ne by done.
    destruct u; cbn; rewrite ?decide_False, ?app_nil_r by done; done.
Qed.

Lemma step_handle_of (m : Z) (T : list addr) (ev : Event) (s s' : State)
    (a : addr) :
  consistent m T s → step ev s = Some s' →
  handle_of a s' = handle_of a s ++ calls a [ev].
Proof.
  intros Hc Hstep.
  assert (Hsettle : ∀ w p, take (RSettle w) (reactions s) = Some p →
            w < length (heap s)).
  { intros w p Hp%take_Some. pose proof (cons_dispatched _ _ _ Hc).
    enough (target (RSettle w) < dispatched s) by (cbn in *; lia).
    apply (cons_live _ _ _ Hc). rewrite Hp. apply elem_of_cons. by left. }
  destruct ev as [t|w|w v|w e|w|w u].
  - rewrite step_addTask in Hstep. injection Hstep as <-.
    by rewrite handle_of_executeNext, handle_of_enqueue, app_nil_r.
  - callback_turn Hstep p Hp.
    by rewrite app_nil_r.
  - callback_turn Hstep p Hp. unfold calls. cbn.
    rewrite handle_of_settle by eauto. by case_decide.
  - callback_turn Hstep p Hp. unfold calls. cbn.
    rewrite handle_of_settle by eauto. by case_decide.
  - callback_turn Hstep p Hp.
    by rewrite handle_of_executeNext, app_nil_r.
  - apply step_work in Hstep as [(Hlt & _)%called_spec ->].
    by apply handle_of_work.
Qed.

Lemma run_handle_of (m : Z) (T : list addr) (tr : list Event)
    (s s' : State) (a : addr) :
  consistent m T s → busy s → run tr s = Some s' →
  handle_of a s' = handle_of a s ++ calls a tr.
Proof.
  revert T s. induction tr as [|ev tr IH]; intros T s Hc Hb Hrun.
  - injection Hrun as <-. by rewrite app_nil_r.
  - cbn in Hrun. destruct (step ev s) as [s1|] eqn:Hstep; [|done].
    destruct (step_invariant _ _ _ _ _ Hc Hb Hstep) as [Hc1 Hb1].
    rewrite (IH _ s1 Hc1 Hb1 Hrun), (step_handle_of _ _ _ _ _ a Hc Hstep).
    change (ev :: tr) with ([ev] ++ tr). unfold calls.
    by rewrite omap_app, app_assoc.
Qed.







(** ** C4: a failing task is isolated *)


















(** ** C5: the queue drains *)

Lemma owed_take (r : Reaction) (p p' : list Reaction) :
  take r p = Some p' →
  sum_list (owed <$> p) = owed r + sum_list (owed <$> p').
Proof.
  revert p'. induction p as [|r' p IH]; intros p' H; [done|].
  cbn in H. destruct (decide (r = r')) as [->|Hne].
  - by injection H as ->.
  - destruct (take r p) as [p0|]; [|done]. injection H as <-.
    cbn. rewrite (IH p0 eq_refl). lia.
Qed.

Lemma work_left_executeNext (s : State) :
  work_left (snd (executeNext s)) ≤ work_left s.
Proof.
  destruct (executeNext_cases s) as [[_ ->]|(_ & w & q & Hq & ->)]; [done|].
  unfold work_left. cbn. rewrite Hq. cbn. lia.
Qed.

Lemma callbacks_of_one (ev : Event) :
  length (callbacks_of [ev]) = if is_callback ev then 1 else 0.
Proof. by destruct ev. Qed.

(** Every turn of a callback uses up work, and the works add none. *)
Lemma work_left_step (ev : Event) (s s' : State) :
  is_submission ev = false → step ev s = Some s' →
  length (callbacks_of [ev]) + work_left s' ≤ work_left s.
Proof.
  intros Hev Hstep. rewrite callbacks_of_one.
  destruct ev as [t|w|w v|w e|w|w u]; [done|..]; cbn [is_callback].
  - callback_turn Hstep p Hp.
    unfold work_left. cbn. rewrite (owed_take _ _ _ Hp). cbn. lia.
  - callback_turn Hstep p Hp.
    unfold work_left. cbn. rewrite (owed_take _ _ _ Hp). cbn. lia.
  - callback_turn Hstep p Hp.
    unfold work_left. cbn. rewrite (owed_take _ _ _ Hp). cbn. lia.
  - callback_turn Hstep p Hp.
    pose proof (work_left_executeNext (release w p s)) as Hle.
    enough (1 + work_left (release w p s) ≤ work_left s) by (cbn; lia).
    unfold work_left. cbn. rewrite (owed_take _ _ _ Hp). cbn. lia.
  - apply step_work in Hstep as [_ ->]. cbn. done.
Qed.

Lemma callbacks_of_cons (ev : Event) (tr : list Event) :
  callbacks_of (ev :: tr) = callbacks_of [ev] ++ callbacks_of tr.
Proof. unfold callbacks_of. by rewrite <- filter_app. Qed.

Lemma work_left_run (tr : list Event) (s s' : State) :
  completions_only tr = true → run tr s = Some s' →
  length (callbacks_of tr) + work_left s' ≤ work_left s.
Proof.
  revert s. induction tr as [|ev tr IH]; intros s Hno Hrun.
  - injection Hrun as <-. cbn. lia.
  - cbn in Hno. apply andb_true_iff in Hno as [Hev Hno].
    apply negb_true_iff in Hev.
    cbn in Hrun. destruct (step ev s) as [s1|] eqn:Hstep; [|done].
    pose proof (work_left_step _ _ _ Hev Hstep).
    pose proof (IH s1 Hno Hrun).
    rewrite callbacks_of_cons, length_app. lia.
Qed.

(** With a slot to run in, a scheduler with no callback left has nothing
    left to do. *)
Lemma quiescent_drained (m : Z) (T : list addr) (s : State) :
  consistent m T s → busy s → (1 ≤ m)%Z → reactions s = [] → drained T s.
Proof.
  intros Hc Hb Hm Hp.
  pose proof (cons_count _ _ _ Hc) as Hn. rewrite Hp in Hn. cbn in Hn.
  assert (Hq : taskQueue (this s) = []).
  { destruct (taskQueue (this s)) as [|w q] eqn:Hq; [done|].
    unfold busy in Hb. rewrite Hq, (cons_max _ _ _ Hc) in Hb.
    specialize (Hb ltac:(done)). lia. }
  pose proof (cons_queue _ _ _ Hc) as Hseq. rewrite Hq in Hseq.
  pose proof (cons_dispatched _ _ _ Hc) as Hk.
  assert (Hall : dispatched s = length (heap s)).
  { destruct (length (heap s) - dispatched s) eqn:Hd; [lia|done]. }
  split; [done|]. split; [done|]. split; [done|].
  intros a w Hw HaT. pose proof (lookup_lt_Some _ _ _ Hw) as Hlt.
  destruct (cons_heap _ _ _ Hc _ _ Hw HaT) as [_ Hst].
  rewrite decide_True, Hp in Hst by lia. unfold terminal, inflight in *.
  destruct (status w); [done|..].
  - destruct Hst as [_ [Hin|Hin]]; by apply elem_of_nil in Hin.
  - destruct Hst as [[v ->] _]. split; [by left|done].
  - destruct Hst as [[e ->] _]. split; [by right|done].
Qed.

(** A registered callback can always take its turn. *)
Lemma callback_can_run (s : State) :
  reactions s ≠ [] →
  ∃ ev s', is_callback ev = true ∧ step ev s = Some s'.
Proof.
  destruct (reactions s) as [|r p] eqn:Hp; [done|]. intros _.
  destruct r as [w|w|w].
  - exists (EvInvoke w). eexists. split; [done|].
    rewrite step_invoke, Hp. cbn. by rewrite decide_True.
  - exists (EvThen w VUndefined). eexists. split; [done|].
    rewrite step_then, Hp. cbn. by rewrite decide_True.
  - exists (EvFinally w). eexists. split; [done|].
    rewrite step_finally, Hp. cbn [take]. by rewrite decide_True.
Qed.

Lemma callback_untouched (ev : Event) :
  is_callback ev = true → is_submission ev = false ∧ touched [ev] = [].
Proof. by destruct ev. Qed.

Lemma drain_exists (m : Z) (T : list addr) (n : nat) (s : State) :
  work_left s ≤ n → consistent m T s → busy s → (1 ≤ m)%Z →
  ∃ tr' s', completions_only tr' = true ∧ touched tr' = [] ∧
            run tr' s = Some s' ∧ drained T s'.
Proof.
  revert s. induction n as [|n IH]; intros s Hn Hc Hb Hm.
  - exists [], s. split; [done|]. split; [done|]. split; [done|].
    apply (quiescent_drained m); try done.
    unfold work_left in Hn. destruct (reactions s) as [|[] p]; [done|..];
      cbn in Hn; lia.
  - destruct (reactions s) as [|r p] eqn:Hp.
    + exists [], s. split; [done|]. split; [done|]. split; [done|].
      by apply (quiescent_drained m).
    + destruct (callback_can_run s) as (ev & s1 & Hev & Hstep).
      { by rewrite Hp. }
      destruct (callback_untouched _ Hev) as [Hsub Hun].
      pose proof (work_left_step _ _ _ Hsub Hstep) as Hlt.
      assert (Hone : length (callbacks_of [ev]) = 1).
      { by rewrite callbacks_of_one, Hev. }
      destruct (step_invariant _ _ _ _ _ Hc Hb Hstep) as [Hc1 Hb1].
      rewrite Hun, app_nil_r in Hc1.
      destruct (IH s1) as (tr1 & s' & Hno & Ht & Hrun & Hdr); [lia|done..|].
      exists (ev :: tr1), s'. split; [|split; [|split; [|done]]].
      * cbn. by rewrite Hsub.
      * by rewrite touched_cons, Hun, Ht.
      * cbn. by rewrite Hstep.
Qed.

(** Nothing has been given to its work while nothing has been started. *)
Lemma no_slot_not_called (w : addr) : called w no_slot_state = false.
Proof.
  apply not_true_is_false. intros (Hlt & Hq & _)%called_spec.
  apply Hq. cbn in *. destruct w as [|[|w]]; [|  |lia].
  - apply elem_of_cons. by left.
  - apply elem_of_cons. right. apply elem_of_cons. by left.
Qed.

(** C5, as stated, fails: in a scheduler built with [maxConcurrent = 0] the
    two queued tasks stay queued on every run without further submissions. *)
Lemma C5_no_slot_counterexample :
  reaches (Some 0%Z) [EvAddTask (VFun 1); EvAddTask (VFun 2)] no_slot_state ∧
  ∀ tr' s', completions_only tr' = true →
    run tr' no_slot_state = Some s' →
    s' = no_slot_state ∧ taskQueue (this s') = [0; 1] ∧
    ∀ T, ¬ drained T s'.
Proof.
  split; [eexists; split; reflexivity|].
  intros tr' s' Hno Hrun. destruct tr' as [|ev tr'].
  - injection Hrun as <-. split; [done|]. split; [done|].
    by intros T [Hq _].
  - cbn in Hno. apply andb_true_iff in Hno as [Hev _].
    destruct ev as [t|w|w v|w e|w|w u]; try done.
    cbn [run step] in Hrun. by rewrite no_slot_not_called in Hrun.
Qed.

(** C5 (amended): for a scheduler built with [maxConcurrent ≥ 1], from every
    state reached and with no further submission, every run has finitely
    many callback turns (at most [work_left]); as long as a callback is
    registered a callback turn is possible; and when none is left the queue
    is empty, [runningCount] is 0, every task has had its work called, its
    outcome handled and its slot given back, once each, and every task
    whose work has not used its [this] is ['completed'] or ['failed'] with
    its promise settled by one call.  Such a run exists. *)
Theorem C5_drain_completeness (arg : option Z) (tr : list Event) (s : State) :
  reaches arg tr s →
  (1 ≤ maxConcurrent (this s))%Z →
  (∀ tr' s', completions_only tr' = true → run tr' s = Some s' →
     length (callbacks_of tr') ≤ work_left s ∧
     (reactions s' ≠ [] →
        ∃ ev s'', is_callback ev = true ∧ step ev s' = Some s'') ∧
     (reactions s' = [] →
        drained (touched (tr ++ tr')) s' ∧
        ∀ a, a < length (heap s') →
          ∃ o, turns_of a (tr ++ tr') = lifecycle a o)) ∧
  (∃ tr' s', completions_only tr' = true ∧ touched tr' = [] ∧
             run tr' s = Some s' ∧ drained (touched tr) s').
Proof.
  intros Hr Hm. destruct (reaches_invariant _ _ _ Hr) as [Hc Hb].
  rewrite (cons_max _ _ _ Hc) in Hm. split.
  - intros tr' s' Hno Hrun.
    pose proof (reaches_app _ _ _ _ _ Hr Hrun) as Hr'.
    destruct (reaches_invariant _ _ _ Hr') as [Hc' Hb'].
    pose proof (work_left_run _ _ _ Hno Hrun).
    split; [lia|]. split; [apply callback_can_run|].
    intros Hp.
    pose proof (quiescent_drained _ _ _ Hc' Hb' Hm Hp) as Hdr.
    split; [done|]. intros a Ha.
    destruct Hdr as (Hq & _).
    pose proof (cons_queue _ _ _ Hc') as Hseq. rewrite Hq in Hseq.
    pose proof (cons_dispatched _ _ _ Hc') as Hk.
    assert (Hall : dispatched s' = length (heap s')).
    { destruct (length (heap s') - dispatched s') eqn:Hd; [lia|done]. }
    pose proof (reaches_chain _ _ _ a Hr') as Hch. rewrite Hp in Hch.
    destruct Hch as
      [(_ & _ & _ & Hin)|[(_ & Hin)|[(o & _ & Hin)|(o & He & _)]]].
    + destruct (not_elem_of_nil (RInvoke a)). apply Hin. lia.
    + by apply elem_of_nil in Hin.
    + by apply elem_of_nil in Hin.
    + by exists o.
  - by apply (drain_exists (default 3%Z arg) _ (work_left s)).
Qed.

(** Only the callback turns are bounded: a work can use its [this] any
    number of times.  Here one callback is registered, which owes two turns,
    and three turns of the work follow. *)
Example work_turns_are_not_bounded :
  ∃ s s', reaches None [EvAddTask (VFun 1); EvInvoke 0] s ∧
    work_left s = 2 ∧
    run [EvWork 0 (SetTask VNull); EvWork 0 (SetTask VNull);
         EvWork 0 (SetTask VNull)] s = Some s'.
Proof.
  eexists _, _. split; [eexists; split; vm_compute; reflexivity|].
  split; vm_compute; reflexivity.
Qed.

(** C5 from the state after the run [four_tasks]. *)
Lemma C5_drain_completeness_witness :
  ∃ tr' s', completions_only tr' = true ∧ touched tr' = [] ∧
            run tr' four_tasks_state = Some s' ∧
            drained (touched four_tasks) s'.
Proof.
  refine (proj2 (C5_drain_completeness (Some 2%Z) four_tasks
                   four_tasks_state _ _)).
  - eexists. split; reflexivity.
  - cbn. lia.
Defined.

(** ** C6: the queue holds pending wrappers only *)

(** No callback of a task that has not been started has run. *)
Lemma waiting_no_turns (arg : option Z) (tr : list Event) (s : State)
    (a : addr) :
  reaches arg tr s → dispatched s ≤ a → turns_of a tr = [].
Proof.
  intros Hr Ha. destruct (reaches_invariant _ _ _ Hr) as [Hc _].
  assert (Hlive : ∀ r, r ∈ reactions s → target r ≠ a).
  { intros r Hin%(cons_live _ _ _ Hc). lia. }
  destruct (reaches_chain _ _ _ a Hr)
    as [(He & _)|[(_ & Hin)|[(o & _ & Hin)|(o & _ & Hk & _)]]].
  - done.
  - by destruct (Hlive _ Hin).
  - by destruct (Hlive _ Hin).
  - lia.
Qed.

(** Nor does one run in the next turn. *)
Lemma waiting_no_turn (m : Z) (T : list addr) (ev : Event) (s s' : State)
    (a : addr) :
  consistent m T s → step ev s = Some s' → dispatched s ≤ a →
  turns_of a [ev] = [] ∧ a ∉ touched [ev].
Proof.
  intros Hc Hstep Ha. rewrite turns_of_one.
  assert (Hlive : ∀ r p, take r (reactions s) = Some p → target r ≠ a).
  { intros r p Hp%take_Some.
    assert (Hin : r ∈ reactions s) by (rewrite Hp; apply elem_of_cons; by left).
    apply (cons_live _ _ _ Hc) in Hin. lia. }
  destruct ev as [t|w|w v|w e|w|w u]; cbn [about touched omap list_omap].
  - split; [done|apply not_elem_of_nil].
  - callback_turn Hstep p Hp. apply Hlive in Hp. cbn in Hp.
    rewrite bool_decide_eq_false_2 by done.
    split; [done|apply not_elem_of_nil].
  - callback_turn Hstep p Hp. apply Hlive in Hp. cbn in Hp.
    rewrite bool_decide_eq_false_2 by done.
    split; [done|apply not_elem_of_nil].
  - callback_turn Hstep p Hp. apply Hlive in Hp. cbn in Hp.
    rewrite bool_decide_eq_false_2 by done.
    split; [done|apply not_elem_of_nil].
  - callback_turn Hstep p Hp. apply Hlive in Hp. cbn in Hp.
    rewrite bool_decide_eq_false_2 by done.
    split; [done|apply not_elem_of_nil].
  - split; [done|]. apply step_work in Hstep as [(Hlt & Hq & _)%called_spec _].
    rewrite (cons_queue _ _ _ Hc), elem_of_seq in Hq.
    intros ->%list_elem_of_singleton. lia.
Qed.

Lemma reaches_step (arg : option Z) (tr : list Event) (ev : Event)
    (s s' : State) :
  reaches arg tr s → step ev s = Some s' → reaches arg (tr ++ [ev]) s'.
Proof.
  intros Hr Hstep. apply (reaches_app _ _ _ s); [done|].
  cbn. by rewrite Hstep.
Qed.

(** C6: in every state reached, every wrapper in the queue has status
    ['pending'] and none of its callbacks has run; a wrapper with status
    ['pending'] is in the queue, unless its work has been called and has used
    its [this]; the queue and the list of started tasks have no duplicates
    and share no task.  In every turn, a wrapper that was waiting (queued
    before the turn, or submitted in it) and is not in the queue afterwards
    is ['running'] with its work scheduled, and one that is in the queue
    afterwards is ['pending']. *)
Theorem C6_queue_holds_pending_only (arg : option Z) (tr : list Event)
    (s : State) :
  reaches arg tr s →
  (∀ a, a ∈ taskQueue (this s) →
     ∃ w, heap s !! a = Some w ∧ status w = pending) ∧
  (∀ a w, heap s !! a = Some w → a ∉ touched tr → status w = pending →
     a ∈ taskQueue (this s)) ∧
  NoDup (taskQueue (this s)) ∧
  NoDup (started (console s)) ∧
  (∀ a, a ∈ taskQueue (this s) → id (heap s !!! a) ∉ started (console s)) ∧
  (∀ a, a ∈ taskQueue (this s) → turns_of a tr = []) ∧
  (∀ ev s' a, step ev s = Some s' →
     a ∈ taskQueue (this s) ∨ length (heap s) ≤ a →
     a < length (heap s') →
     (a ∈ taskQueue (this s') → status (heap s' !!! a) = pending) ∧
     (a ∉ taskQueue (this s') →
        status (heap s' !!! a) = running ∧ RInvoke a ∈ reactions s')).
Proof.
  intros Hr. destruct (reaches_invariant _ _ _ Hr) as [Hc Hb].
  pose proof (cons_dispatched _ _ _ Hc) as Hk.
  pose proof (cons_queue _ _ _ Hc) as Hq.
  assert (Hin : ∀ a, a ∈ taskQueue (this s) ↔
                     dispatched s ≤ a < length (heap s)).
  { intros a. rewrite Hq, elem_of_seq. lia. }
  assert (Hnd : NoDup (nth_id <$> seq 0 (length (heap s)))).
  { apply NoDup_fmap_2; [|apply NoDup_seq]. intros a b. apply nth_id_inj. }
  rewrite <- (started_queued_ids _ _ _ Hc) in Hnd.
  apply NoDup_app in Hnd as (Hnd1 & Hdisj & _).
  split; [|split; [|split; [|split; [|split; [|split]]]]].
  - intros a Ha%Hin.
    destruct (lookup_lt_is_Some_2 (heap s) a) as [w Hw]; [lia|].
    exists w. split; [done|].
    destruct (cons_heap _ _ _ Hc _ _ Hw) as [_ Hst].
    + apply (untouched_ge _ _ _ _ Hc). lia.
    + rewrite decide_False in Hst by lia. apply Hst.
  - intros a w Hw Hun Hp. apply Hin.
    pose proof (lookup_lt_Some _ _ _ Hw) as Hlt.
    destruct (cons_heap _ _ _ Hc _ _ Hw Hun) as [_ Hst]. case_decide.
    + by rewrite Hp in Hst.
    + lia.
  - rewrite Hq. apply NoDup_seq.
  - done.
  - intros a Ha Hs. apply (Hdisj _ Hs). unfold queued_ids.
    apply list_elem_of_fmap. by exists a.
  - intros a Ha%Hin. apply (waiting_no_turns arg tr s); [done|lia].
  - intros ev s' a Hstep Ha Hlt.
    assert (Hge : dispatched s ≤ a).
    { destruct Ha as [Ha%Hin|Ha]; lia. }
    pose proof (reaches_step _ _ _ _ _ Hr Hstep) as Hr'.
    destruct (reaches_invariant _ _ _ Hr') as [Hc' _].
    destruct (waiting_no_turn _ _ _ _ _ a Hc Hstep Hge) as [Hno Hun1].
    assert (Hun : a ∉ touched (tr ++ [ev])).
    { rewrite touched_app, not_elem_of_app. split; [|done].
      by apply (untouched_ge _ _ _ _ Hc). }
    destruct (lookup_lt_is_Some_2 (heap s') a) as [w Hw]; [done|].
    rewrite (list_lookup_total_correct _ _ _ Hw).
    destruct (cons_heap _ _ _ Hc' _ _ Hw Hun) as [_ Hst].
    pose proof (cons_queue _ _ _ Hc') as Hq'. rewrite Hq', elem_of_seq.
    split.
    + intros Ha'. rewrite decide_False in Hst by lia. apply Hst.
    + intros Ha'. assert (Hk' : a < dispatched s') by lia.
      rewrite decide_True in Hst by done.
      pose proof (reaches_chain _ _ _ a Hr') as Hch.
      unfold turns_of in Hch, Hno.
      rewrite filter_app in Hch. fold (turns_of a tr) in Hch.
      rewrite Hno, (waiting_no_turns arg tr s a Hr Hge) in Hch.
      destruct Hch as
        [(_ & _ & _ & Hinv)|[(He & _)|[(o & He & _)|(o & He & _)]]];
        try done.
      specialize (Hinv Hk'). split; [|done].
      destruct (status w); try done;
        destruct Hst as [_ Hfree]; destruct Hfree; by left.
Qed.

(** C6 at the run [before_failure]: when the second task gives its slot
    back, the third leaves the queue and is running. *)
Lemma C6_queue_holds_pending_only_witness :
  status (heap before_failure_state !!! 2) = running ∧
  RInvoke 2 ∈ reactions before_failure_state.
Proof.
  refine (proj2 (proj2 (proj2 (proj2 (proj2 (proj2 (proj2
            (C6_queue_holds_pending_only (Some 2%Z) before_handover
               before_handover_state _)))))) (EvFinally 1)
            before_failure_state 2 _ _ _) _).
  - eexists. split; reflexivity.
  - reflexivity.
  - left. cbn. apply elem_of_cons. by left.
  - cbn. lia.
  - cbn. intros [Heq|Hin]%elem_of_cons; [done|]. by apply elem_of_nil in Hin.
Defined.

(** ** C7: task ids *)

Lemma executeNext_keeps_fields (s : State) (a : addr) :
  (λ w, (id w, task w, handle w)) <$> heap (snd (executeNext s)) !! a =
  (λ w, (id w, task w, handle w)) <$> heap s !! a.
Proof.
  destruct (executeNext_cases s) as [[_ ->]|(_ & w & q & _ & ->)]; [done|].
  cbn. rewrite list_lookup_alter. case_decide as Ha; [subst a|done].
  by rewrite <- option_fmap_compose.
Qed.




(** ** C8: the status report *)

Lemma count_pending (h : list TaskWrapper) (k : nat) :
  (∀ a w, h !! a = Some w → (status w = pending ↔ k ≤ a)) →
  length (filter (λ w, status w = pending) h) = length h - k.
Proof.
  induction h as [|x h IH] using rev_ind; intros Hh; [done|].
  rewrite filter_app, !length_app, IH.
  - pose proof (Hh (length h) x (list_lookup_middle _ _ _ _ eq_refl)) as Hx.
    rewrite filter_cons, filter_nil. cbn. case_decide as Hd; cbn.
    + apply Hx in Hd. lia.
    + assert (¬ k ≤ length h) by (by intros ?%Hx). lia.
  - intros a w Hw. apply Hh. by apply lookup_app_l_Some.
Qed.

(** C8: [getStatus] returns [maxConcurrent], [runningCount], the length of
    the queue and the id and status of every queued wrapper, and leaves the
    whole state as it is.  In every state reached the listed tasks are the
    queued ones in submission order, each with status ['pending']; the
    reported length is the number of submitted tasks that have not been
    started, which is the number of wrappers whose status is ['pending']
    unless a work has put the status of its own wrapper back to
    ['pending']. *)
Theorem C8_getStatus_is_pure_snapshot (s : State) :
  getStatus s =
    ({| rep_maxConcurrent := maxConcurrent (this s);
        rep_running := runningCount (this s);
        rep_waiting := length (taskQueue (this s));
        rep_tasks := (λ w, (id (heap s !!! w), status (heap s !!! w))) <$>
                       taskQueue (this s) |}, s) ∧
  ∀ arg tr, reaches arg tr s →
    rep_waiting (fst (getStatus s)) = length (heap s) - dispatched s ∧
    ((∀ a w, a ∈ touched tr → heap s !! a = Some w → status w ≠ pending) →
       rep_waiting (fst (getStatus s)) =
         length (filter (λ w, status w = pending) (heap s))) ∧
    rep_tasks (fst (getStatus s)) =
      (λ a, (nth_id a, pending)) <$> taskQueue (this s).
Proof.
  split; [done|]. intros arg tr Hr.
  destruct (reaches_invariant _ _ _ Hr) as [Hc _].
  pose proof (cons_dispatched _ _ _ Hc) as Hk.
  pose proof (cons_queue _ _ _ Hc) as Hq.
  change (getStatus s) with
    ({| rep_maxConcurrent := maxConcurrent (this s);
        rep_running := runningCount (this s);
        rep_waiting := length (taskQueue (this s));
        rep_tasks := (λ w, (id (heap s !!! w), status (heap s !!! w))) <$>
                       taskQueue (this s) |}, s).
  cbn [fst rep_waiting rep_tasks]. split; [|split].
  - by rewrite Hq, length_seq.
  - intros Hnp. rewrite (count_pending _ (dispatched s)).
    + by rewrite Hq, length_seq.
    + intros a w Hw. destruct (decide (a ∈ touched tr)) as [Ht|Hun].
      * destruct (cons_touched _ _ _ Hc a Ht) as [Hlt _].
        split; [|lia]. intros Hp. by destruct (Hnp a w Ht Hw).
      * destruct (cons_heap _ _ _ Hc _ _ Hw Hun) as [_ Hst].
        case_decide.
        -- split; [|lia]. intros Hp. by rewrite Hp in Hst.
        -- split; [lia|]. intros _. apply Hst.
  - apply list_fmap_ext. intros i a Ha.
    assert (Hin : a ∈ taskQueue (this s)) by by eapply list_elem_of_lookup_2.
    rewrite Hq in Hin. apply elem_of_seq in Hin.
    destruct (lookup_lt_is_Some_2 (heap s) a) as [w Hw]; [lia|].
    rewrite (list_lookup_total_correct _ _ _ Hw).
    destruct (cons_heap _ _ _ Hc _ _ Hw) as [-> Hst].
    + apply (untouched_ge _ _ _ _ Hc). lia.
    + rewrite decide_False in Hst by lia. by destruct Hst as [-> _].
Qed.

(** A work that puts the status of its wrapper back to ['pending'] is
    counted by nobody: [getStatus] reports no task waiting, and one wrapper
    says ['pending']. *)
Example pending_again_is_not_waiting :
  ∃ s, reaches None
         [EvAddTask (VFun 1); EvInvoke 0; EvWork 0 (SetStatus pending)] s ∧
       rep_waiting (fst (getStatus s)) = 0 ∧
       length (filter (λ w, status w = pending) (heap s)) = 1.
Proof.
  eexists. split; [eexists; split; vm_compute; reflexivity|].
  split; vm_compute; reflexivity.
Qed.

(** C8 at the state after the run [four_tasks]. *)
Lemma C8_getStatus_is_pure_snapshot_witness :
  rep_waiting (fst (getStatus four_tasks_state)) =
    length (heap four_tasks_state) - dispatched four_tasks_state ∧
  ((∀ a w, a ∈ touched four_tasks → heap four_tasks_state !! a = Some w →
      status w ≠ pending) →
     rep_waiting (fst (getStatus four_tasks_state)) =
       length (filter (λ w, status w = pending) (heap four_tasks_state))) ∧
  rep_tasks (fst (getStatus four_tasks_state)) =
    (λ a, (nth_id a, pending)) <$> taskQueue (this four_tasks_state).
Proof.
  refine (proj2 (C8_getStatus_is_pure_snapshot four_tasks_state)
            (Some 2%Z) four_tasks _).
  eexists. split; reflexivity.
Defined.

(** ** C9: the constructor accepts every bound *)

(** C9, as stated, fails: the constructor accepts [maxConcurrent = 0] and
    raises nothing. *)
Lemma C9_zero_accepted_counterexample :
  (0 < 1)%Z ∧ ¬ ∃ e, constructor (Some 0%Z) = Throw e.
Proof. split; [lia|]. by intros [e He]. Qed.

(** C9 (amended): the constructor raises no error for any argument, a
    [maxConcurrent] below 1 included; it stores the value as given (3 when
    the argument is left out) in a scheduler with nothing running, an empty
    queue and no id given out. *)
Theorem C9_constructor_accepts_any_bound (arg : option Z) :
  constructor arg =
    Normal {| this := {| maxConcurrent := default 3%Z arg; runningCount := 0;
                         taskQueue := []; taskId := 0 |};
              heap := []; reactions := []; console := [] |} ∧
  ∀ e, constructor arg ≠ Throw e.
Proof. split; [reflexivity|]. by intros e. Qed.

(** ** C10: a scheduler without slots *)

Lemma blocked_step (m : Z) (T : list addr) (ev : Event) (s s' : State) :
  consistent m T s →
  (maxConcurrent (this s) ≤ 0)%Z → blocked s → step ev s = Some s' →
  ∃ t, ev = EvAddTask t ∧ s' = enqueue t s.
Proof.
  intros Hc Hm (Hn & Hp & Hl) Hstep. destruct ev as [t|w|w v|w e|w|w u].
  - exists t. split; [done|]. rewrite step_addTask in Hstep.
    injection Hstep as <-. rewrite executeNext_idle; [done|].
    left. cbn. lia.
  - rewrite step_invoke, Hp in Hstep. done.
  - rewrite step_then, Hp in Hstep. done.
  - rewrite step_catch, Hp in Hstep. done.
  - rewrite step_finally, Hp in Hstep. done.
  - apply step_work in Hstep as [(Hlt & Hq & _)%called_spec _].
    destruct Hq. rewrite (cons_queue _ _ _ Hc), elem_of_seq.
    unfold dispatched. rewrite Hl. cbn. lia.
Qed.

Lemma blocked_run (m : Z) (T : list addr) (tr : list Event) (s s' : State) :
  consistent m T s → busy s →
  (maxConcurrent (this s) ≤ 0)%Z → blocked s → run tr s = Some s' →
  blocked s' ∧ length (heap s') = length (heap s) + length tr ∧
  Forall (λ ev, is_submission ev = true) tr.
Proof.
  revert s. induction tr as [|ev tr IH]; intros s Hc Hbu Hm Hb Hrun.
  - injection Hrun as <-. split; [done|]. split; [cbn; lia|done].
  - cbn in Hrun. destruct (step ev s) as [s1|] eqn:Hstep; [|done].
    destruct (step_invariant _ _ _ _ _ Hc Hbu Hstep) as [Hc1 Hbu1].
    destruct (blocked_step _ _ _ _ _ Hc Hm Hb Hstep) as (t & -> & ->).
    cbn [touched omap list_omap] in Hc1. rewrite app_nil_r in Hc1.
    destruct (IH (enqueue t s)) as (Hb' & Hlen & Hall); [done..|].
    split; [done|]. split.
    + rewrite Hlen. cbn. rewrite length_app. cbn. lia.
    + by apply Forall_cons.
Qed.

(** C10: in a scheduler built with [maxConcurrent ≤ 0] every state reached
    has [runningCount = 0], no callback registered and no task started; the
    run consists of submissions only, one wrapper per submission, all of them
    in the queue in submission order with status ['pending'] and a promise
    that has not been settled; no turn other than a submission is possible;
    and [addTask] still appends a new pending wrapper to the queue and
    returns its promise. *)
Theorem C10_no_slot_never_dispatches (m : Z) (tr : list Event) (s : State) :
  (m ≤ 0)%Z →
  reaches (Some m) tr s →
  runningCount (this s) = 0%Z ∧
  reactions s = [] ∧
  started (console s) = [] ∧
  Forall (λ ev, is_submission ev = true) tr ∧
  length (heap s) = length tr ∧
  taskQueue (this s) = seq 0 (length (heap s)) ∧
  (∀ a w, heap s !! a = Some w →
     status w = pending ∧ handle w = [] ∧ a ∈ taskQueue (this s)) ∧
  (∀ ev, is_submission ev = false → step ev s = None) ∧
  (∀ t, addTask t s = (length (heap s), enqueue t s)).
Proof.
  intros Hm Hr. destruct (reaches_invariant _ _ _ Hr) as [Hc _].
  destruct Hr as (s0 & H0 & Hrun).
  destruct (initial_invariant _ _ H0) as [Hc0 Hb0].
  apply constructor_normal in H0 as ->.
  change (default 3%Z (Some m)) with m in Hrun, Hc, Hc0.
  pose proof (λ H1 H2, blocked_run _ _ tr _ s Hc0 Hb0 H1 H2 Hrun)
    as Hblocked.
  destruct (Hblocked Hm) as ((Hn & Hp & Hl) & Hlen & Hall); [done|].
  clear Hblocked.
  pose proof (cons_queue _ _ _ Hc) as Hq. unfold dispatched in Hq.
  rewrite Hl in Hq. cbn in Hq. rewrite Nat.sub_0_r in Hq.
  split; [done|]. split; [done|]. split; [by rewrite Hl|]. split; [done|].
  split; [done|]. split; [done|]. split; [|split].
  - intros a w Hw. destruct (cons_heap _ _ _ Hc _ _ Hw) as [_ Hst].
    { apply (untouched_ge _ _ _ _ Hc). unfold dispatched. rewrite Hl.
      cbn. lia. }
    unfold dispatched in Hst. rewrite Hl in Hst. cbn in Hst.
    destruct Hst as [-> ->]. split; [done|]. split; [done|].
    rewrite Hq. apply elem_of_seq. apply lookup_lt_Some in Hw. lia.
  - intros ev Hev. destruct (step ev s) as [s'|] eqn:Hstep; [|done].
    destruct (blocked_step _ _ ev s s' Hc) as (t & -> & _); try done.
    rewrite (cons_max _ _ _ Hc). done.
  - intros t. rewrite addTask_unfold, executeNext_idle; [done|].
    left. cbn. rewrite (cons_max _ _ _ Hc), Hn. done.
Qed.

(** C10 at two submissions to a scheduler built with [maxConcurrent = 0]. *)
Lemma C10_no_slot_never_dispatches_witness :
  runningCount (this no_slot_state) = 0%Z.
Proof.
  refine (proj1 (C10_no_slot_never_dispatches 0
                   [EvAddTask (VFun 1); EvAddTask (VFun 2)]
                   no_slot_state _ _)).
  - lia.
  - eexists. split; reflexivity.
Defined.

(** * Further properties of the scheduler *)

Example one_slot_run :
  state_after (Some 1%Z) (burst [VFun 1; VFun 2; VFun 3]) = Some one_slot_state.
Proof. reflexivity. Qed.

(** ** Slots are never left idle *)

(** X2: a task waits only while all slots are taken.  In every state reached
    with a non-empty queue, [runningCount] has reached [maxConcurrent], and
    equals it when the bound is not negative. *)
Theorem X2_work_conserving (arg : option Z) (tr : list Event) (s : State) :
  reaches arg tr s →
  taskQueue (this s) ≠ [] →
  (maxConcurrent (this s) ≤ runningCount (this s))%Z ∧
  ((0 ≤ maxConcurrent (this s))%Z →
     runningCount (this s) = maxConcurrent (this s)).
Proof.
  intros Hr Hq. destruct (reaches_invariant _ _ _ Hr) as [Hc Hb].
  pose proof (Hb Hq) as Hle. pose proof (cons_bound _ _ _ Hc) as Hbound.
  rewrite <- (cons_max _ _ _ Hc) in Hbound. split; [done|]. lia.
Qed.

(** X2 at three submissions to a scheduler with one slot. *)
Lemma X2_work_conserving_witness :
  (maxConcurrent (this one_slot_state) ≤ runningCount (this one_slot_state))%Z.
Proof.
  refine (proj1 (X2_work_conserving (Some 1%Z)
                   (burst [VFun 1; VFun 2; VFun 3]) one_slot_state _ _)).
  - eexists. split; reflexivity.
  - done.
Defined.

(** X3: [executeNext] called from outside, between two turns, does nothing:
    in every state reached either the queue is empty or no slot is free. *)
Theorem X3_executeNext_from_outside (arg : option Z) (tr : list Event)
    (s : State) :
  reaches arg tr s → executeNext s = (tt, s).
Proof.
  intros Hr. destruct (reaches_invariant _ _ _ Hr) as [_ Hb].
  apply executeNext_idle.
  destruct (taskQueue (this s)) as [|w q] eqn:Hq; [by right|].
  left. apply Hb. by rewrite Hq.
Qed.

(** X3 after the run [four_tasks]. *)
Lemma X3_executeNext_from_outside_witness :
  executeNext four_tasks_state = (tt, four_tasks_state).
Proof.
  refine (X3_executeNext_from_outside (Some 2%Z) four_tasks
            four_tasks_state _).
  eexists. split; reflexivity.
Defined.

(** ** The two ways of [addTask] *)

(** X4: in a state reached, [addTask] with a free slot
    ([runningCount < maxConcurrent]) finds the queue empty and starts the new
    task at once: the queue stays empty, [runningCount] grows by one and the
    new wrapper is ['running'] with its work scheduled.  Without a free slot
    it appends the new wrapper, ['pending'], to the tail of the queue and
    changes nothing else. *)
Theorem X4_addTask_starts_or_queues (arg : option Z) (tr : list Event)
    (s : State) (t : Value) :
  reaches arg tr s →
  ((runningCount (this s) < maxConcurrent (this s))%Z →
     taskQueue (this s) = [] ∧
     snd (addTask t s) =
       {| this := {| maxConcurrent := maxConcurrent (this s);
                     runningCount := runningCount (this s) + 1;
                     taskQueue := [];
                     taskId := taskId (this s) + 1 |};
          heap := heap s ++ [{| id := taskId (this s) + 1; task := t;
                                handle := []; status := running |}];
          reactions := RInvoke (length (heap s)) :: reactions s;
          console := console s ++
            [LogStart (taskId (this s) + 1) (runningCount (this s) + 1)] |}) ∧
  ((maxConcurrent (this s) ≤ runningCount (this s))%Z →
     snd (addTask t s) =
       {| this := {| maxConcurrent := maxConcurrent (this s);
                     runningCount := runningCount (this s);
                     taskQueue := taskQueue (this s) ++ [length (heap s)];
                     taskId := taskId (this s) + 1 |};
          heap := heap s ++ [{| id := taskId (this s) + 1; task := t;
                                handle := []; status := pending |}];
          reactions := reactions s;
          console := console s |}).
Proof.
  intros Hr. destruct (reaches_invariant _ _ _ Hr) as [Hc Hb].
  rewrite addTask_unfold. cbn [snd]. split.
  - intros Hlt.
    assert (Hq : taskQueue (this s) = []).
    { destruct (taskQueue (this s)) as [|w q] eqn:Hq; [done|].
      unfold busy in Hb. rewrite Hq in Hb. specialize (Hb ltac:(done)). lia. }
    split; [done|].
    rewrite (executeNext_start (enqueue t s) (length (heap s)) []);
      [|done|by cbn; rewrite Hq].
    unfold start_task, enqueue. cbn [this heap reactions console
      maxConcurrent runningCount taskQueue taskId snd].
    f_equal.
    + apply list_eq. intros i. rewrite list_lookup_alter.
      case_decide as Hi; [subst i; by rewrite !list_lookup_middle|].
      destruct (decide (i < length (heap s))) as [Hlt'|Hge].
      * by rewrite !lookup_app_l.
      * rewrite !lookup_app_r by lia.
        by destruct (i - length (heap s)) as [|[|n]] eqn:Hi'; [lia|..].
    + by rewrite lookup_total_app_r, Nat.sub_diag.
  - intros Hle. rewrite executeNext_idle; [done|]. by left.
Qed.

(** X4 at a fourth submission to a scheduler with one slot taken. *)
Lemma X4_addTask_starts_or_queues_witness :
  snd (addTask (VFun 4) one_slot_state) =
    {| this := {| maxConcurrent := 1; runningCount := 1;
                  taskQueue := [1; 2] ++ [3]; taskId := 3 + 1 |};
       heap := heap one_slot_state ++
                 [{| id := 3 + 1; task := VFun 4; handle := [];
                     status := pending |}];
       reactions := [RInvoke 0];
       console := [LogStart 1 1] |}.
Proof.
  refine (proj2 (X4_addTask_starts_or_queues (Some 1%Z)
                   (burst [VFun 1; VFun 2; VFun 3]) one_slot_state
                   (VFun 4) _) _).
  - eexists. split; reflexivity.
  - cbn. lia.
Defined.

(** ** Handing a slot over *)

(** X11: when the [finally] callback of a task runs in a state reached, the
    slot goes to the head of the queue if a task is waiting: the head leaves
    the queue, becomes ['running'] with its work scheduled, and
    [runningCount] is as before.  If no task is waiting, [runningCount] drops
    by one and the wrappers stay as they are. *)
Theorem X11_finally_hands_slot_over (arg : option Z) (tr : list Event)
    (s s' : State) (w : addr) :
  reaches arg tr s →
  step (EvFinally w) s = Some s' →
  (taskQueue (this s) = [] →
     runningCount (this s') = (runningCount (this s) - 1)%Z ∧
     taskQueue (this s') = [] ∧ heap s' = heap s) ∧
  (∀ w' q, taskQueue (this s) = w' :: q →
     runningCount (this s') = runningCount (this s) ∧
     taskQueue (this s') = q ∧
     status (heap s' !!! w') = running ∧
     RInvoke w' ∈ reactions s').
Proof.
  intros Hr Hstep. destruct (reaches_invariant _ _ _ Hr) as [Hc Hb].
  callback_turn Hstep p Hp. pose proof (take_Some _ _ _ Hp) as Hperm.
  assert (Hcount : (1 ≤ runningCount (this s))%Z).
  { rewrite (cons_count _ _ _ Hc), Hperm. cbn. lia. }
  pose proof (cons_bound _ _ _ Hc) as Hbound.
  pose proof (cons_max _ _ _ Hc) as Hmax.
  split.
  - intros Hq. rewrite executeNext_idle by (by right). done.
  - intros w' q Hq.
    rewrite (executeNext_start (release w p s) w' q);
      [|cbn; lia|done].
    destruct (consistent_head _ _ _ _ _ Hc Hq) as (-> & Hk & _).
    cbn. split; [lia|]. split; [done|].
    split; [|apply elem_of_cons; by left].
    rewrite list_lookup_total_alter_eq by done. done.
Qed.

(** X11 at the end of the second task in the run [four_tasks]. *)
Lemma X11_finally_hands_slot_over_witness :
  runningCount (this before_failure_state) = 2%Z ∧
  taskQueue (this before_failure_state) = [3] ∧
  status (heap before_failure_state !!! 2) = running ∧
  RInvoke 2 ∈ reactions before_failure_state.
Proof.
  refine (proj2 (X11_finally_hands_slot_over (Some 2%Z)
    [EvAddTask (VFun 1); EvAddTask (VFun 2); EvAddTask (VFun 3);
     EvAddTask (VFun 4); EvInvoke 0; EvInvoke 1; EvThen 1 (VStr "r2")]
    {| this := {| maxConcurrent := 2; runningCount := 2;
                  taskQueue := [2; 3]; taskId := 4 |};
       heap :=
         [{| id := 1; task := VFun 1; handle := []; status := running |};
          {| id := 2; task := VFun 2; handle := [Resolved (VStr "r2")];
             status := completed |};
          {| id := 3; task := VFun 3; handle := []; status := pending |};
          {| id := 4; task := VFun 4; handle := []; status := pending |}];
       reactions := [RFinally 1; RSettle 0];
       console := [LogStart 1 1; LogStart 2 2] |}
    before_failure_state 1 _ _) 2 [3] _).
  - eexists. split; reflexivity.
  - reflexivity.
  - reflexivity.
Defined.

(** ** Every submission is accounted for *)

(** X5: in every state reached, the number of ids given out is the sum of
    what [getStatus] reports as running and as waiting and of the number of
    tasks whose [finally] callback has run: a submitted task waits, holds a
    slot or has given its slot back. *)
Theorem X5_submissions_accounted_for (arg : option Z) (tr : list Event)
    (s : State) :
  reaches arg tr s →
  taskId (this s) =
    (rep_running (fst (getStatus s)) +
     Z.of_nat (rep_waiting (fst (getStatus s))) +
     Z.of_nat (length (finished (console s))))%Z.
Proof.
  intros Hr. destruct (reaches_invariant _ _ _ Hr) as [Hc _].
  destruct (reaches_balanced _ _ _ Hr) as [Hn _ _ _].
  pose proof (cons_dispatched _ _ _ Hc) as Hk. unfold dispatched in Hk.
  change (rep_running (fst (getStatus s))) with (runningCount (this s)).
  change (rep_waiting (fst (getStatus s)))
    with (length (taskQueue (this s))).
  rewrite (cons_taskId _ _ _ Hc), (cons_queue _ _ _ Hc), length_seq, Hn.
  unfold dispatched. lia.
Qed.

(** X5 after the run [four_tasks]: 4 = 2 running + 1 waiting + 1 done. *)
Lemma X5_submissions_accounted_for_witness :
  taskId (this four_tasks_state) =
    (rep_running (fst (getStatus four_tasks_state)) +
     Z.of_nat (rep_waiting (fst (getStatus four_tasks_state))) +
     Z.of_nat (length (finished (console four_tasks_state))))%Z.
Proof.
  refine (X5_submissions_accounted_for (Some 2%Z) four_tasks
            four_tasks_state _).
  eexists. split; reflexivity.
Defined.

(** ** The wrappers hold what was submitted *)

Lemma heap_length_executeNext (s : State) :
  length (heap (snd (executeNext s))) = length (heap s).
Proof.
  destruct (executeNext_cases s) as [[_ ->]|(_ & w & q & _ & ->)]; [done|].
  cbn. by rewrite length_alter.
Qed.

Lemma heap_length_step (ev : Event) (s s' : State) :
  step ev s = Some s' →
  length (heap s') = length (heap s) + length (submitted [ev]).
Proof.
  intros Hstep. destruct ev as [t|w|w v|w e|w|w u].
  - rewrite step_addTask in Hstep. injection Hstep as <-.
    rewrite heap_length_executeNext. cbn. by rewrite length_app.
  - callback_turn Hstep p Hp. cbn. lia.
  - callback_turn Hstep p Hp. cbn. rewrite !length_alter. lia.
  - callback_turn Hstep p Hp. cbn. rewrite !length_alter. lia.
  - callback_turn Hstep p Hp. rewrite heap_length_executeNext. cbn. lia.
  - apply step_work in Hstep as [_ ->]. cbn. rewrite length_alter. lia.
Qed.

Lemma submitted_cons (ev : Event) (tr : list Event) :
  submitted (ev :: tr) = submitted [ev] ++ submitted tr.
Proof. unfold submitted. by rewrite <- omap_app. Qed.

Lemma heap_length_run (tr : list Event) (s s' : State) :
  run tr s = Some s' →
  length (heap s') = length (heap s) + length (submitted tr).
Proof.
  revert s. induction tr as [|ev tr IH]; intros s Hrun.
  - injection Hrun as <-. cbn. lia.
  - cbn in Hrun. destruct (step ev s) as [s1|] eqn:Hstep; [|done].
    rewrite (IH s1 Hrun), (heap_length_step _ _ _ Hstep),
      (submitted_cons ev tr), length_app. lia.
Qed.

Lemma task_at_executeNext (s : State) (n : addr) :
  task <$> heap (snd (executeNext s)) !! n = task <$> heap s !! n.
Proof.
  pose proof (executeNext_keeps_fields s n) as H.
  destruct (heap (snd (executeNext s)) !! n), (heap s !! n); cbn in *;
    congruence.
Qed.

Lemma task_at_alter (f : TaskWrapper → TaskWrapper) (w n : addr)
    (h : list TaskWrapper) :
  (∀ x, task (f x) = task x) ∨ n ≠ w →
  task <$> alter f w h !! n = task <$> h !! n.
Proof.
  intros Hf. destruct (decide (w = n)) as [->|Hne].
  - rewrite list_lookup_alter_eq. destruct Hf as [Hf|?]; [|done].
    destruct (h !! n); cbn; [by rewrite Hf|done].
  - by rewrite list_lookup_alter_ne.
Qed.

(** The callable held by a wrapper whose work does not use its [this] in a
    turn is not changed by the turn. *)
Lemma task_at_step (ev : Event) (s s' : State) (n : addr) (x : TaskWrapper) :
  step ev s = Some s' → heap s !! n = Some x → n ∉ touched [ev] →
  task <$> heap s' !! n = Some (task x).
Proof.
  intros Hstep Hx Hun. destruct ev as [t|w|w v|w e|w|w u].
  - rewrite step_addTask in Hstep. injection Hstep as <-.
    rewrite task_at_executeNext. cbn.
    by rewrite (lookup_app_l_Some _ _ _ _ Hx).
  - callback_turn Hstep p Hp. cbn. by rewrite Hx.
  - callback_turn Hstep p Hp. cbn.
    rewrite !task_at_alter by (by left). by rewrite Hx.
  - callback_turn Hstep p Hp. cbn.
    rewrite !task_at_alter by (by left). by rewrite Hx.
  - callback_turn Hstep p Hp. rewrite task_at_executeNext. cbn.
    by rewrite Hx.
  - apply step_work in Hstep as [_ ->]. cbn.
    rewrite task_at_alter, Hx; [done|]. right. intros ->.
    apply Hun. cbn. apply elem_of_cons. by left.
Qed.

Lemma task_at_run (tr : list Event) (s s' : State) (n : addr)
    (x : TaskWrapper) :
  run tr s = Some s' → heap s !! n = Some x → n ∉ touched tr →
  task <$> heap s' !! n = Some (task x).
Proof.
  revert s x. induction tr as [|ev tr IH]; intros s x Hrun Hx Hun.
  - injection Hrun as <-. by rewrite Hx.
  - cbn in Hrun. destruct (step ev s) as [s1|] eqn:Hstep; [|done].
    rewrite touched_cons, not_elem_of_app in Hun. destruct Hun as [Hu1 Hu2].
    pose proof (task_at_step _ _ _ _ _ Hstep Hx Hu1) as H1.
    apply fmap_Some in H1 as (x1 & Hx1 & Heq).
    rewrite (IH s1 x1 Hrun Hx1 Hu2). by rewrite Heq.
Qed.

(** The wrapper made for a submission holds the callable submitted. *)
Lemma task_at_submission (t : Value) (s s' : State) :
  step (EvAddTask t) s = Some s' →
  task <$> heap s' !! length (heap s) = Some t.
Proof.
  rewrite step_addTask. intros [= <-]. rewrite task_at_executeNext. cbn.
  by rewrite list_lookup_middle.
Qed.

Lemma submitted_run (tr : list Event) (s s' : State) (n : nat) (t : Value) :
  run tr s = Some s' → submitted tr !! n = Some t →
  length (heap s) + n ∉ touched tr →
  task <$> heap s' !! (length (heap s) + n) = Some t.
Proof.
  revert s n. induction tr as [|ev tr IH]; intros s n Hrun Hn Hun; [done|].
  cbn in Hrun. destruct (step ev s) as [s1|] eqn:Hstep; [|done].
  rewrite touched_cons, not_elem_of_app in Hun. destruct Hun as [Hu1 Hu2].
  pose proof (heap_length_step _ _ _ Hstep) as Hlen.
  rewrite (submitted_cons ev tr) in Hn.
  destruct ev as [t0|w|w v|w e|w|w u]; cbn in Hn, Hlen;
    try (rewrite Nat.add_0_r in Hlen; rewrite <- Hlen in Hu2 |- *;
         by apply (IH s1)).
  destruct n as [|n].
  - injection Hn as ->. rewrite Nat.add_0_r in *.
    pose proof (task_at_submission _ _ _ Hstep) as H1.
    apply fmap_Some in H1 as (x1 & Hx1 & ->).
    apply (task_at_run tr s1); done.
  - cbn in Hn.
    replace (length (heap s) + S n) with (length (heap s1) + n) in * by lia.
    by apply (IH s1).
Qed.

(** X6: in every state reached there is one wrapper for each call of
    [addTask] made during the run, in order, and [taskId] is their number;
    the wrapper of the [n]-th submission (counting from 0) has that
    submission's callable as [task] and [n + 1] as [id], unless its work has
    used its [this]. *)
Theorem X6_wrappers_hold_submissions (arg : option Z) (tr : list Event)
    (s : State) :
  reaches arg tr s →
  length (heap s) = length (submitted tr) ∧
  taskId (this s) = Z.of_nat (length (submitted tr)) ∧
  ∀ n t, submitted tr !! n = Some t →
    ∃ w, heap s !! n = Some w ∧
         (n ∉ touched tr → task w = t ∧ id w = nth_id n).
Proof.
  intros Hr. destruct (reaches_invariant _ _ _ Hr) as [Hc _].
  destruct Hr as (s0 & H0 & Hrun). apply constructor_normal in H0 as ->.
  pose proof (heap_length_run _ _ _ Hrun) as Hlen. cbn in Hlen.
  split; [done|]. split.
  - by rewrite (cons_taskId _ _ _ Hc), Hlen.
  - intros n t Hn.
    destruct (lookup_lt_is_Some_2 (heap s) n) as [w Hw].
    { rewrite Hlen. by eapply lookup_lt_Some. }
    exists w. split; [done|]. intros Hun. split.
    + pose proof (submitted_run _ _ _ n t Hrun Hn Hun) as Ht. cbn in Ht.
      rewrite Hw in Ht. by injection Ht.
    + apply (cons_heap _ _ _ Hc _ _ Hw Hun).
Qed.

(** X6 for the third submission of the run [four_tasks]. *)
Lemma X6_wrappers_hold_submissions_witness :
  ∃ w, heap four_tasks_state !! 2 = Some w ∧
       (2 ∉ touched four_tasks → task w = VFun 3 ∧ id w = nth_id 2).
Proof.
  refine (proj2 (proj2 (X6_wrappers_hold_submissions (Some 2%Z) four_tasks
                          four_tasks_state _)) 2 (VFun 3) _).
  - eexists. split; reflexivity.
  - reflexivity.
Defined.

(** ** The console follows the count *)

Lemma last_logged_count_snoc (c : list LogEntry) (e : LogEntry) :
  last_logged_count (c ++ [e]) = logged_count e.
Proof. unfold last_logged_count. by rewrite last_snoc. Qed.

Section Console.

Context (m : Z) (T : list addr).

Lemma console_ok_executeNext (s : State) :
  consistent m T s → console_ok m s → console_ok m (snd (executeNext s)).
Proof.
  intros Hc [Hall Hlast].
  destruct (executeNext_cases s) as [[_ ->]|(Hlt & w & q & _ & ->)]; [done|].
  pose proof (cons_count _ _ _ Hc) as Hn. rewrite (cons_max _ _ _ Hc) in Hlt.
  split; unfold start_task; cbn [snd console this runningCount].
  - apply Forall_app. split; [done|]. apply Forall_singleton. cbn. lia.
  - by rewrite last_logged_count_snoc.
Qed.

Lemma console_ok_step (ev : Event) (s s' : State) :
  consistent m T s → console_ok m s → step ev s = Some s' → console_ok m s'.
Proof.
  intros Hc Hok Hstep. destruct ev as [t|w|w v|w e|w|w u].
  - rewrite step_addTask in Hstep. injection Hstep as <-.
    apply (console_ok_executeNext); [by apply consistent_enqueue|done].
  - callback_turn Hstep p Hp. done.
  - callback_turn Hstep p Hp. done.
  - callback_turn Hstep p Hp. done.
  - callback_turn Hstep p Hp. pose proof (take_Some _ _ _ Hp) as Hperm.
    apply console_ok_executeNext; [by apply consistent_release|].
    destruct Hok as [Hall Hlast].
    pose proof (cons_count _ _ _ Hc) as Hn. rewrite Hperm in Hn. cbn in Hn.
    pose proof (cons_bound _ _ _ Hc) as Hb.
    split; unfold release; cbn [snd console this runningCount].
    + apply Forall_app. split; [done|]. apply Forall_singleton. cbn. lia.
    + by rewrite last_logged_count_snoc.
  - by apply step_work in Hstep as [_ ->].
Qed.

End Console.

Lemma console_ok_run (m : Z) (T : list addr) (tr : list Event)
    (s s' : State) :
  consistent m T s → busy s → console_ok m s → run tr s = Some s' →
  console_ok m s'.
Proof.
  revert T s. induction tr as [|ev tr IH]; intros T s Hc Hb Hok Hrun.
  - by injection Hrun as <-.
  - cbn in Hrun. destruct (step ev s) as [s1|] eqn:Hstep; [|done].
    destruct (step_invariant _ _ _ _ _ Hc Hb Hstep) as [Hc1 Hb1].
    apply (IH _ s1 Hc1); try done. by apply (console_ok_step m T ev s).
Qed.

(** X10: in every state reached, the count printed in the last console line
    is the current [runningCount] (0 before the first line), every line
    that reports a start prints a count between 1 and [maxConcurrent], and
    every line that reports an end prints a count between 0 and
    [maxConcurrent - 1]. *)
Theorem X10_console_follows_count (arg : option Z) (tr : list Event)
    (s : State) :
  reaches arg tr s →
  Forall (log_entry_ok (maxConcurrent (this s))) (console s) ∧
  last_logged_count (console s) = runningCount (this s).
Proof.
  intros Hr. destruct (reaches_invariant _ _ _ Hr) as [Hc _].
  rewrite (cons_max _ _ _ Hc).
  destruct Hr as (s0 & H0 & Hrun).
  destruct (initial_invariant _ _ H0) as [Hc0 Hb0].
  apply (console_ok_run _ [] tr s0); try done.
  apply constructor_normal in H0 as ->. by split.
Qed.

(** X10 after the run [four_tasks]: the last line printed 2. *)
Lemma X10_console_follows_count_witness :
  last_logged_count (console four_tasks_state) =
    runningCount (this four_tasks_state).
Proof.
  refine (proj2 (X10_console_follows_count (Some 2%Z) four_tasks
                   four_tasks_state _)).
  eexists. split; reflexivity.
Defined.

(** ** A wrapper only moves forward *)

Lemma later_than_refl (w : TaskWrapper) : later_than w w.
Proof. split; [done|]. split; [done|]. by destruct (status w). Qed.

Lemma later_than_trans (w1 w2 w3 : TaskWrapper) :
  later_than w1 w2 → later_than w2 w3 → later_than w1 w3.
Proof.
  intros (Hi1 & Ht1 & Hs1 & Hh1 & Hf1) (Hi2 & Ht2 & Hs2 & Hh2 & Hf2).
  split; [congruence|]. split; [congruence|]. split; [|split].
  - destruct (status w1), (status w2), (status w3); done.
  - by etrans.
  - intros Hterm. rewrite (Hf1 Hterm) in *. by apply Hf2.
Qed.

Section Forward.

Context (m : Z) (T : list addr).

Lemma forward_executeNext (s : State) (a : addr) (w : TaskWrapper) :
  consistent m T s → heap s !! a = Some w → a ∉ T →
  ∃ w', heap (snd (executeNext s)) !! a = Some w' ∧ later_than w w'.
Proof.
  intros Hc Hw Hun.
  destruct (executeNext_cases s) as [[_ ->]|(_ & w0 & q & Hq & ->)].
  { exists w. split; [done|apply later_than_refl]. }
  destruct (consistent_head _ _ _ _ _ Hc Hq) as (-> & Hk & _).
  cbn. rewrite list_lookup_alter. case_decide as Ha.
  - subst a. rewrite Hw. eexists. split; [done|].
    destruct (cons_heap _ _ _ Hc _ _ Hw Hun) as [_ Hst].
    rewrite decide_False in Hst by lia. destruct Hst as [Hp Hh].
    split; [done|]. split; [done|]. cbn. rewrite Hp.
    split; [done|]. split; [done|]. by intros [?|?].
  - exists w. split; [done|apply later_than_refl].
Qed.

Lemma forward_settle (s : State) (a w0 : addr) (w : TaskWrapper)
    (st : Status) (o : Settlement) (p : list Reaction) :
  consistent m T s → reactions s ≡ₚ RSettle w0 :: p →
  st = completed ∨ st = failed →
  heap s !! a = Some w → a ∉ T →
  ∃ w', heap (settle w0 st o p s) !! a = Some w' ∧ later_than w w'.
Proof.
  intros Hc Hp Hst Hw Hun. cbn. destruct (decide (w0 = a)) as [->|Hne].
  - rewrite !list_lookup_alter_eq, Hw. eexists. split; [done|].
    assert (Hin : RSettle a ∈ reactions s).
    { rewrite Hp. apply elem_of_cons. by left. }
    pose proof (cons_live _ _ _ Hc _ Hin) as Hk. cbn in Hk.
    destruct (cons_heap _ _ _ Hc _ _ Hw Hun) as [_ Hold].
    rewrite decide_True in Hold by done.
    assert (Hrun : status w = running).
    { destruct (status w); try done; destruct Hold as [_ Hno];
        destruct Hno; by right. }
    split; [done|]. split; [done|]. cbn. rewrite Hrun.
    split; [by destruct Hst as [->| ->]|].
    split; [by apply prefix_app_r|]. by intros [?|?].
  - rewrite !list_lookup_alter_ne by done.
    exists w. split; [done|apply later_than_refl].
Qed.

Lemma forward_step (ev : Event) (s s' : State) (a : addr) (w : TaskWrapper) :
  consistent m T s → step ev s = Some s' → heap s !! a = Some w →
  a ∉ T ++ touched [ev] →
  ∃ w', heap s' !! a = Some w' ∧ later_than w w'.
Proof.
  intros Hc Hstep Hw [Hun Hun1]%not_elem_of_app.
  destruct ev as [t|w0|w0 v|w0 e|w0|w0 u].
  - rewrite step_addTask in Hstep. injection Hstep as <-.
    apply forward_executeNext; [by apply consistent_enqueue| |done].
    cbn. by apply lookup_app_l_Some.
  - callback_turn Hstep p Hp. exists w. split; [done|apply later_than_refl].
  - callback_turn Hstep p Hp.
    apply forward_settle; [done|by apply take_Some|by left|done..].
  - callback_turn Hstep p Hp.
    apply forward_settle; [done|by apply take_Some|by right|done..].
  - callback_turn Hstep p Hp.
    apply forward_executeNext; [|done..].
    by apply consistent_release, take_Some.
  - apply step_work in Hstep as [_ ->]. exists w.
    split; [|apply later_than_refl]. cbn.
    rewrite list_lookup_alter_ne; [done|]. intros ->.
    apply Hun1. cbn. apply elem_of_cons. by left.
Qed.

End Forward.

Lemma forward_run (m : Z) (T : list addr) (tr : list Event) (s s' : State)
    (a : addr) (w : TaskWrapper) :
  consistent m T s → busy s → run tr s = Some s' → heap s !! a = Some w →
  a ∉ T ++ touched tr →
  ∃ w', heap s' !! a = Some w' ∧ later_than w w'.
Proof.
  revert T s w. induction tr as [|ev tr IH]; intros T s w Hc Hb Hrun Hw Hun.
  - injection Hrun as <-. exists w. split; [done|apply later_than_refl].
  - cbn in Hrun. destruct (step ev s) as [s1|] eqn:Hstep; [|done].
    destruct (step_invariant _ _ _ _ _ Hc Hb Hstep) as [Hc1 Hb1].
    rewrite touched_cons, app_assoc in Hun.
    assert (Hun1 : a ∉ T ++ touched [ev]).
    { intros Hin. apply Hun, elem_of_app. by left. }
    destruct (forward_step _ _ _ _ _ _ _ Hc Hstep Hw Hun1)
      as (w1 & Hw1 & Hl1).
    destruct (IH _ s1 w1 Hc1 Hb1 Hrun Hw1 Hun) as (w' & Hw' & Hl').
    exists w'. split; [done|]. by eapply later_than_trans.
Qed.

(** X1: from every state reached, however the run goes on, the wrapper of a
    task stays where it is and the calls made to its [resolve] and [reject]
    are only added to.  When its work does not use its [this], the wrapper
    keeps its [id] and its [task]; its status only moves forward along
    ['pending'], ['running'], then ['completed'] or ['failed']; and once it
    is ['completed'] or ['failed'] nothing of it changes any more. *)
Theorem X1_wrapper_moves_forward (arg : option Z) (tr tr2 : list Event)
    (s s2 : State) (a : addr) (w : TaskWrapper) :
  reaches arg tr s →
  run tr2 s = Some s2 →
  heap s !! a = Some w →
  ∃ w2, heap s2 !! a = Some w2 ∧
        handle w2 = handle w ++ calls a tr2 ∧
        (a ∉ touched (tr ++ tr2) →
           id w2 = id w ∧ task w2 = task w ∧
           status_le (status w) (status w2) = true ∧
           (terminal (status w) → w2 = w)).
Proof.
  intros Hr Hrun Hw. destruct (reaches_invariant _ _ _ Hr) as [Hc Hb].
  pose proof (heap_length_run _ _ _ Hrun) as Hlen.
  destruct (lookup_lt_is_Some_2 (heap s2) a) as [w2 Hw2].
  { apply lookup_lt_Some in Hw. lia. }
  exists w2. split; [done|]. split.
  - pose proof (run_handle_of _ _ _ _ _ a Hc Hb Hrun) as Hh.
    unfold handle_of in Hh. by rewrite Hw, Hw2 in Hh.
  - rewrite touched_app. intros Hun.
    destruct (forward_run _ _ tr2 s s2 a w Hc Hb Hrun Hw Hun)
      as (w2' & Hw2' & Hl).
    assert (w2' = w2) as -> by congruence.
    destruct Hl as (? & ? & ? & _ & ?). done.
Qed.

(** X1 for the first task of the run [four_tasks], from running to failed. *)
Lemma X1_wrapper_moves_forward_witness :
  ∃ w2, heap four_tasks_state !! 0 = Some w2 ∧
        handle w2 = [] ++ calls 0 [EvCatch 0 (VStr "boom")] ∧
        (0 ∉ touched (before_failure ++ [EvCatch 0 (VStr "boom")]) →
           id w2 = 1%Z ∧ task w2 = VFun 1 ∧
           status_le running (status w2) = true ∧
           (terminal running → w2 =
              {| id := 1; task := VFun 1; handle := [];
                 status := running |})).
Proof.
  refine (X1_wrapper_moves_forward (Some 2%Z) before_failure
            [EvCatch 0 (VStr "boom")] before_failure_state four_tasks_state 0
            {| id := 1; task := VFun 1; handle := []; status := running |}
            _ _ _).
  - eexists. split; reflexivity.
  - reflexivity.
  - reflexivity.
Defined.

(** ** A burst of submissions *)

Lemma submitted_burst (ts : list Value) : submitted (burst ts) = ts.
Proof. induction ts as [|t ts IH]; [done|]. cbn. by f_equal. Qed.

Lemma calls_burst (a : addr) (ts : list Value) : calls a (burst ts) = [].
Proof. induction ts as [|t ts IH]; [done|]. apply IH. Qed.

Lemma touched_burst (ts : list Value) : touched (burst ts) = [].
Proof. induction ts as [|t ts IH]; [done|]. apply IH. Qed.

Lemma finished_burst (ts : list Value) (s s' : State) :
  run (burst ts) s = Some s' → finished (console s') = finished (console s).
Proof.
  revert s. induction ts as [|t ts IH]; intros s Hrun.
  - by injection Hrun as <-.
  - cbn [burst fmap list_fmap run] in Hrun. rewrite step_addTask in Hrun.
    cbn [mbind option_bind] in Hrun. rewrite (IH _ Hrun).
    destruct (executeNext_cases (enqueue t s))
      as [[_ ->]|(_ & w & q & _ & ->)]; [done|].
    cbn. by rewrite finished_snoc_start.
Qed.

(** X9: when [n] tasks are submitted to a new scheduler with
    [maxConcurrent ≥ 0] before any callback runs, the first
    [min n maxConcurrent] of them are started at once, in submission order,
    and are ['running']; the others are queued in submission order and are
    ['pending']. *)
Theorem X9_burst_fills_the_slots (arg : option Z) (ts : list Value)
    (s : State) :
  reaches arg (burst ts) s →
  (0 ≤ maxConcurrent (this s))%Z →
  runningCount (this s) =
    Z.min (Z.of_nat (length ts)) (maxConcurrent (this s)) ∧
  started (console s) =
    nth_id <$> seq 0 (Z.to_nat (runningCount (this s))) ∧
  taskQueue (this s) =
    seq (Z.to_nat (runningCount (this s)))
        (length ts - Z.to_nat (runningCount (this s))) ∧
  ∀ a w, heap s !! a = Some w →
    status w =
      if decide (a < Z.to_nat (runningCount (this s))) then running
      else pending.
Proof.
  intros Hr Hm. destruct (reaches_invariant _ _ _ Hr) as [Hc Hb].
  destruct (reaches_balanced _ _ _ Hr) as [Hn _ _ _].
  destruct Hr as (s0 & H0 & Hrun).
  destruct (initial_invariant _ _ H0) as [Hc0 Hb0].
  apply constructor_normal in H0 as ->.
  pose proof (finished_burst _ _ _ Hrun) as Hfin. cbn in Hfin.
  rewrite Hfin in Hn. cbn in Hn. fold (dispatched s) in Hn.
  assert (Hk : Z.to_nat (runningCount (this s)) = dispatched s) by lia.
  assert (Hlen : length (heap s) = length ts).
  { pose proof (heap_length_run _ _ _ Hrun) as Ht. cbn in Ht.
    by rewrite submitted_burst in Ht. }
  pose proof (cons_dispatched _ _ _ Hc) as Hle.
  pose proof (cons_queue _ _ _ Hc) as Hq.
  pose proof (cons_bound _ _ _ Hc) as Hbound.
  rewrite <- (cons_max _ _ _ Hc) in Hbound. rewrite Hk, <- Hlen.
  split; [|split; [apply (cons_started _ _ _ Hc)|split; [done|]]].
  - destruct (decide (dispatched s = length (heap s))) as [Heq|Hne]; [lia|].
    assert (Hne' : taskQueue (this s) ≠ []).
    { rewrite Hq.
      destruct (length (heap s) - dispatched s) eqn:Hd; [lia|done]. }
    pose proof (Hb Hne'). lia.
  - intros a w Hw.
    pose proof (run_handle_of _ _ _ _ _ a Hc0 Hb0 Hrun) as Hh.
    rewrite calls_burst in Hh. unfold handle_of in Hh.
    rewrite Hw in Hh. cbn in Hh.
    destruct (cons_heap _ _ _ Hc _ _ Hw) as [_ Hst].
    { rewrite touched_burst. apply not_elem_of_nil. }
    case_decide; [|apply Hst].
    destruct (status w); try done.
    + destruct Hst as [[v Hv] _]. by rewrite Hv in Hh.
    + destruct Hst as [[e He] _]. by rewrite He in Hh.
Qed.

(** X9 at three submissions to a scheduler with one slot. *)
Lemma X9_burst_fills_the_slots_witness :
  runningCount (this one_slot_state) =
    Z.min (Z.of_nat (length [VFun 1; VFun 2; VFun 3]))
          (maxConcurrent (this one_slot_state)).
Proof.
  refine (proj1 (X9_burst_fills_the_slots (Some 1%Z)
                   [VFun 1; VFun 2; VFun 3] one_slot_state _ _)).
  - eexists. split; reflexivity.
  - cbn. lia.
Defined.

(** ** What [runningCount] counts *)




Section Slots.

Context (m : Z) (T : list addr).







End Slots.




(** ** The turns of one task *)


